(** * Orama core: sorter and index aggregate

    A shallow embedding of [packages/orama/src/components/sorter.ts] and of
    the index aggregate ([components/index.ts]) of Orama, with proofs of the
    properties stated in its specification. *)

From Stdlib Require Import QArith ZArith Lia Sorting.Sorted Sorting.Permutation.
From stdpp Require Import base gmap list strings.

Open Scope Z_scope.

(** ** JavaScript values *)

Module JS.

(** A JavaScript number: a finite value (rounding is not modelled; every
    finite value in the theorems below is a small integer or a ratio of
    such, on which the IEEE operations are exact), [NaN] or an infinity
    ([neg] tells its sign). The sign of zero is not tracked. *)
Inductive jsnum :=
  | JNum (q : Q)
  | JNaN
  | JInf (neg : bool).

Definition qltb (a b : Q) : bool := negb (Qle_bool b a).
Definition qeqb (a b : Q) : bool := Qeq_bool a b.

Definition of_Z (z : Z) : jsnum := JNum (inject_Z z).
Definition of_nat (n : nat) : jsnum := of_Z (Z.of_nat n).

Definition jneg (x : jsnum) : jsnum :=
  match x with
  | JNum q => JNum (- q)
  | JNaN => JNaN
  | JInf n => JInf (negb n)
  end.

Definition jadd (x y : jsnum) : jsnum :=
  match x, y with
  | JNum a, JNum b => JNum (a + b)
  | JNaN, _ | _, JNaN => JNaN
  | JInf a, JInf b => if Bool.eqb a b then JInf a else JNaN
  | JInf a, JNum _ | JNum _, JInf a => JInf a
  end.

Definition jsub (x y : jsnum) : jsnum := jadd x (jneg y).

(** the sign of a non-zero finite value, [true] when negative *)
Definition qneg (q : Q) : bool := qltb q 0.

Definition jmul (x y : jsnum) : jsnum :=
  match x, y with
  | JNum a, JNum b => JNum (a * b)
  | JNaN, _ | _, JNaN => JNaN
  | JInf a, JInf b => JInf (xorb a b)
  | JInf a, JNum b | JNum b, JInf a =>
      if qeqb b 0 then JNaN else JInf (xorb a (qneg b))
  end.

Definition jdiv (x y : jsnum) : jsnum :=
  match x, y with
  | JNaN, _ | _, JNaN => JNaN
  | JNum a, JNum b =>
      if qeqb b 0 then (if qeqb a 0 then JNaN else JInf (qneg a))
      else JNum (a / b)
  | JNum _, JInf _ => JNum 0
  | JInf a, JNum b => if qeqb b 0 then JInf a else JInf (xorb a (qneg b))
  | JInf _, JInf _ => JNaN
  end.

(** [x < 0], as a sort comparator's result is read ([NaN] reads as 0) *)
Definition jlt0 (x : jsnum) : bool :=
  match x with
  | JNum q => qltb q 0
  | JNaN => false
  | JInf n => n
  end.

(** [x > 0] *)
Definition jgt0 (x : jsnum) : bool :=
  match x with
  | JNum q => qltb 0 q
  | JNaN => false
  | JInf n => negb n
  end.

Definition is_finite (x : jsnum) : bool :=
  match x with JNum _ => true | _ => false end.

(** Numeric equality of two JavaScript numbers ([NaN] related to itself so
    that "unchanged" can be stated). *)
Definition jeq (x y : jsnum) : Prop :=
  match x, y with
  | JNum a, JNum b => a == b
  | JNaN, JNaN => True
  | JInf a, JInf b => a = b
  | _, _ => False
  end.

(** [undefined] used as a number is [NaN] *)
Definition num_or_nan (x : option jsnum) : jsnum :=
  match x with Some v => v | None => JNaN end.

(** [x ?? d] *)
Definition nullish {A} (x : option A) (d : A) : A :=
  match x with Some v => v | None => d end.

(** An operation that completes with a value or throws an error. *)
Inductive res (A : Type) :=
  | Ok (a : A)
  | Throw (err : string).
Arguments Ok {A} _.
Arguments Throw {A} _.

Global Instance res_ret : MRet res := fun _ a => Ok a.
Global Instance res_bind : MBind res := fun _ _ f m =>
  match m with Ok a => f a | Throw e => Throw e end.

(** [Array.prototype.indexOf] on a list of ids *)
Fixpoint indexOf (l : list Z) (x : Z) : Z :=
  match l with
  | [] => -1
  | y :: l' => if Z.eqb y x then 0 else
                 let i := indexOf l' x in if Z.eqb i (-1) then -1 else i + 1
  end.

(** [Array.prototype.splice(start, deleteCount)]: the array left after the
    call; a negative [start] counts from the end. *)
Definition splice {A} (l : list A) (start deleteCount : Z) : list A :=
  let len := Z.of_nat (length l) in
  let s := if Z.ltb start 0 then Z.max (len + start) 0 else Z.min start len in
  take (Z.to_nat s) l ++ drop (Z.to_nat s + Z.to_nat deleteCount) l.

(** [Array.prototype.sort(cmp)], as the stable sort the language requires:
    elements are taken in order and each is placed before the first element
    it compares below. For a comparator that is a consistent total preorder
    every stable sort returns this list. *)
Fixpoint sort_insert {A} (cmp : A -> A -> jsnum) (x : A) (l : list A) : list A :=
  match l with
  | [] => [x]
  | y :: l' => if jlt0 (cmp x y) then x :: l else y :: sort_insert cmp x l'
  end.

Definition js_sort {A} (cmp : A -> A -> jsnum) (l : list A) : list A :=
  fold_left (fun acc x => sort_insert cmp x acc) l [].

End JS.

Import JS.

(** ** The sorter ([components/sorter.ts]) *)

Module Sorter.

Inductive SortType := ST_string | ST_number | ST_boolean.

Inductive SortValue :=
  | SVString (s : string)
  | SVNumber (q : Q)
  | SVBoolean (b : bool).

(** [PropertySort]: [docs] maps an id to its position in [orderedDocs];
    [orderedDocsToRemove] holds the ids whose removal is deferred. *)
Record PropertySort := mkPropertySort {
  docs : gmap string Z;
  orderedDocs : list (string * SortValue);
  orderedDocsToRemove : gmap string bool;
  type : SortType
}.

Record Sorter := mkSorter {
  language : option string;
  isSorted : bool;
  enabled : bool;
  sortableProperties : list string;
  sortablePropertiesWithTypes : gmap string SortType;
  sorts : gmap string PropertySort
}.

Definition set_docs (s : PropertySort) (d : gmap string Z) : PropertySort :=
  mkPropertySort d (orderedDocs s) (orderedDocsToRemove s) (type s).
Definition set_orderedDocs (s : PropertySort) (o : list (string * SortValue)) :=
  mkPropertySort (docs s) o (orderedDocsToRemove s) (type s).
Definition set_orderedDocsToRemove (s : PropertySort) (r : gmap string bool) :=
  mkPropertySort (docs s) (orderedDocs s) r (type s).

Definition set_sorts (st : Sorter) (m : gmap string PropertySort) : Sorter :=
  mkSorter (language st) (isSorted st) (enabled st) (sortableProperties st)
    (sortablePropertiesWithTypes st) m.
Definition set_isSorted (st : Sorter) (b : bool) : Sorter :=
  mkSorter (language st) b (enabled st) (sortableProperties st)
    (sortablePropertiesWithTypes st) (sorts st).
Definition set_language (st : Sorter) (l : option string) : Sorter :=
  mkSorter l (isSorted st) (enabled st) (sortableProperties st)
    (sortablePropertiesWithTypes st) (sorts st).

Definition emptyPropertySort (t : SortType) : PropertySort :=
  mkPropertySort ∅ [] ∅ t.

(** [innerCreate] on a schema without nested objects: scalar types are
    sortable, array types are skipped; an unknown type fails. *)
Fixpoint innerCreate_flat (schema : list (string * string))
    (sortableDeniedProperties : list string) : res Sorter :=
  match schema with
  | [] => Ok (mkSorter None true true [] ∅ ∅)
  | (path, ty) :: rest =>
      st ← innerCreate_flat rest sortableDeniedProperties;
      if decide (path ∈ sortableDeniedProperties) then Ok st else
      let add t := Ok (mkSorter (language st) (isSorted st) (enabled st)
                         (path :: sortableProperties st)
                         (<[path := t]> (sortablePropertiesWithTypes st))
                         (<[path := emptyPropertySort t]> (sorts st))) in
      if String.eqb ty "boolean" then add ST_boolean
      else if String.eqb ty "number" then add ST_number
      else if String.eqb ty "string" then add ST_string
      else if String.eqb ty "boolean[]" || String.eqb ty "number[]"
              || String.eqb ty "string[]" then Ok st
      else Throw "INVALID_SORT_SCHEMA_TYPE"
  end.

Section WithLocale.

(** [String.prototype.localeCompare] for a language *)
Variable localeCompare : option string -> string -> string -> Z.

Definition insert (sorter : Sorter) (prop id : string) (value : SortValue)
    (lang : option string) : res Sorter :=
  if negb (enabled sorter) then Ok sorter else
  let sorter := set_isSorted (set_language sorter lang) false in
  match sorts sorter !! prop with
  | None => Throw "TypeError"
  | Some s =>
      let s := set_docs s (<[id := Z.of_nat (length (orderedDocs s))]> (docs s)) in
      let s := set_orderedDocs s (orderedDocs s ++ [(id, value)]) in
      Ok (set_sorts sorter (<[prop := s]> (sorts sorter)))
  end.

(** The three comparators. Values of another type than the property's never
    reach them (documents are validated against the schema); they compare
    as equal here. *)
Definition stringSort (lang : option string) (value d : string * SortValue) : jsnum :=
  match value.2, d.2 with
  | SVString a, SVString b => of_Z (localeCompare lang a b)
  | _, _ => JNum 0
  end.

Definition numerSort (value d : string * SortValue) : jsnum :=
  match value.2, d.2 with
  | SVNumber a, SVNumber b => JNum (a - b)
  | _, _ => JNum 0
  end.

Definition booleanSort (value d : string * SortValue) : jsnum :=
  match d.2 with
  | SVBoolean true => of_Z (-1)
  | _ => of_Z 1
  end.

Definition predicate (lang : option string) (t : SortType) :=
  match t with
  | ST_string => stringSort lang
  | ST_number => numerSort
  | ST_boolean => booleanSort
  end.

(** the loop [for i ... s.docs.set(s.orderedDocs[i][0], i)] *)
Fixpoint set_positions (d : gmap string Z) (l : list (string * SortValue))
    (i : Z) : gmap string Z :=
  match l with
  | [] => d
  | x :: l' => set_positions (<[x.1 := i]> d) l' (i + 1)
  end.

Definition ensurePropertyIsSorted (lang : option string) (s : PropertySort)
    : PropertySort :=
  let od := js_sort (predicate lang (type s)) (orderedDocs s) in
  set_docs (set_orderedDocs s od) (set_positions (docs s) od 0).

Definition ensureIsSorted (sorter : Sorter) : Sorter :=
  if isSorted sorter then sorter else
  if negb (enabled sorter) then sorter else
  set_isSorted
    (set_sorts sorter (ensurePropertyIsSorted (language sorter) <$> sorts sorter))
    true.

Definition deleteOrderedDocs (s : PropertySort) : PropertySort :=
  if decide (size (orderedDocsToRemove s) = 0%nat) then s else
  set_orderedDocsToRemove
    (set_orderedDocs s
       (filter (fun doc => orderedDocsToRemove s !! doc.1 = None) (orderedDocs s)))
    ∅.

Definition ensureOrderedDocsAreDeletedByProperty (sorter : Sorter) (prop : string)
    : res Sorter :=
  match sorts sorter !! prop with
  | None => Throw "TypeError"
  | Some s => Ok (set_sorts sorter (<[prop := deleteOrderedDocs s]> (sorts sorter)))
  end.

Definition ensureOrderedDocsAreDeleted (sorter : Sorter) : Sorter :=
  set_sorts sorter (deleteOrderedDocs <$> sorts sorter).

(** [!index]: a missing entry and position 0 are both falsy *)
Definition falsy_index (index : option Z) : bool :=
  match index with None => true | Some i => Z.eqb i 0 end.

Definition remove (sorter : Sorter) (prop id : string) : res Sorter :=
  if negb (enabled sorter) then Ok sorter else
  match sorts sorter !! prop with
  | None => Throw "TypeError"
  | Some s =>
      if falsy_index (docs s !! id) then Ok sorter else
      let s := set_docs s (delete id (docs s)) in
      let s := set_orderedDocsToRemove s (<[id := true]> (orderedDocsToRemove s)) in
      Ok (set_sorts sorter (<[prop := s]> (sorts sorter)))
  end.

Inductive SortOrder := ASC | DESC.

Definition sortBy_cmp (d : gmap string Z) (isDesc : bool) (a b : string * Q) : jsnum :=
  match d !! a.1, d !! b.1 with
  | None, None => of_Z 0
  | None, Some _ => of_Z 1
  | Some _, None => of_Z (-1)
  | Some ia, Some ib => if isDesc then of_Z (ib - ia) else of_Z (ia - ib)
  end.

(** The ensure steps [sortBy] runs before it sorts. *)
Definition sortBy_prepare (sorter : Sorter) (property : string) : res Sorter :=
  sorter ← ensureOrderedDocsAreDeletedByProperty sorter property;
  Ok (ensureIsSorted sorter).

(** [sortBy] returns the sorter state after its ensure steps and the sorted
    [docIds]. *)
Definition sortBy (sorter : Sorter) (docIds : list (string * Q)) (property : string)
    (order : SortOrder) : res (Sorter * list (string * Q)) :=
  if negb (enabled sorter) then Throw "SORT_DISABLED" else
  let isDesc := match order with DESC => true | ASC => false end in
  match sorts sorter !! property with
  | None => Throw "UNABLE_TO_SORT_ON_UNKNOWN_FIELD"
  | Some _ =>
      sorter ← sortBy_prepare sorter property;
      match sorts sorter !! property with
      | None => Throw "TypeError"
      | Some s => Ok (sorter, js_sort (sortBy_cmp (docs s) isDesc) docIds)
      end
  end.

(** [save] flushes the sorter before serializing it. *)
Definition save_flush (sorter : Sorter) : Sorter :=
  if negb (enabled sorter) then sorter else
  ensureIsSorted (ensureOrderedDocsAreDeleted sorter).

End WithLocale.

End Sorter.

(** ** [save] and [load] of the sorter ([components/sorter.ts]) *)

Module SorterIO.
Import Sorter.

(** [SerializablePropertySort]: [docs] as a plain object. [Object.fromEntries]
    and [Object.entries] may list the ids in another order than the [Map];
    the sorter only reads [docs] by key, so the map is modelled as such. *)
Record SerializablePropertySort := mkSerializablePropertySort {
  ser_docs : gmap string Z;
  ser_orderedDocs : list (string * SortValue);
  ser_type : SortType
}.

Record RawSorter := mkRawSorter {
  raw_sortableProperties : list string;
  raw_sortablePropertiesWithTypes : gmap string SortType;
  raw_sorts : gmap string SerializablePropertySort;
  raw_enabled : bool;
  raw_isSorted : bool;
  raw_language : option string
}.

(** the raw object: [{enabled: false}] or a saved sorter *)
Inductive Raw := RawDisabled | RawSaved (r : RawSorter).

(** [{enabled: false} as Sorter]: its other fields are undefined; every
    function of the sorter reads [enabled] before any of them. *)
Definition disabledSorter : Sorter := mkSorter None false false [] ∅ ∅.

Definition load (raw : Raw) : Sorter :=
  match raw with
  | RawDisabled => disabledSorter
  | RawSaved r =>
      if negb (raw_enabled r) then disabledSorter else
      let sorts := (fun s => mkPropertySort (ser_docs s) (ser_orderedDocs s) ∅ (ser_type s))
                     <$> raw_sorts r in
      mkSorter (raw_language r) (raw_isSorted r) true (raw_sortableProperties r)
        (raw_sortablePropertiesWithTypes r) sorts
  end.

Section WithLocale.
Variable localeCompare : option string -> string -> string -> Z.

(** [save] returns the raw object; it also flushes the sorter it is given,
    so the sorter after the call is returned beside it. *)
Definition save (sorter : Sorter) : Sorter * Raw :=
  if negb (enabled sorter) then (sorter, RawDisabled) else
  let sorter := ensureIsSorted localeCompare (ensureOrderedDocsAreDeleted sorter) in
  let sorts := (fun s => mkSerializablePropertySort (docs s) (orderedDocs s) (type s))
                 <$> sorts sorter in
  (sorter, RawSaved (mkRawSorter (sortableProperties sorter)
                       (sortablePropertiesWithTypes sorter) sorts (enabled sorter)
                       (isSorted sorter) (language sorter))).

End WithLocale.

End SorterIO.

(** ** The index aggregate ([components/index.ts]) *)

Module Index.

Inductive ScalarType := T_string | T_number | T_boolean.
Inductive SearchableType := Scalar (t : ScalarType) | ArrayOf (t : ScalarType).

(** [isArrayType] and [getInnerType] of [components/defaults.ts] *)
Definition isArrayType (t : SearchableType) : bool :=
  match t with ArrayOf _ => true | Scalar _ => false end.

Inductive ScalarValue :=
  | VString (s : string)
  | VNumber (q : Q)
  | VBoolean (b : bool).

Inductive SearchableValue :=
  | VScalar (v : ScalarValue)
  | VArray (l : list ScalarValue).

(** JavaScript truthiness of a scalar *)
Definition truthy (v : ScalarValue) : bool :=
  match v with
  | VString s => negb (String.eqb s "")
  | VNumber q => negb (qeqb q 0)
  | VBoolean b => b
  end.

Record BooleanIndex := mkBooleanIndex { bi_true : list Z; bi_false : list Z }.

Definition bucket (b : BooleanIndex) (key : bool) : list Z :=
  if key then bi_true b else bi_false b.
Definition set_bucket (b : BooleanIndex) (key : bool) (l : list Z) : BooleanIndex :=
  if key then mkBooleanIndex l (bi_false b) else mkBooleanIndex (bi_true b) l.

(** the options object of the radix [find] *)
Record FindParams := mkFindParams {
  term : option string;
  exact : bool;
  tolerance : option Z
}.

Inductive OperationValue := OVNumber (q : Q) | OVRange (l : list Q).

(** a where-clause entry: a boolean, a string, a list of strings or a
    comparison object given by its keys *)
Inductive Filter :=
  | FBool (b : bool)
  | FString (s : string)
  | FStrings (l : list string)
  | FOperation (ops : list (string * OperationValue)).

Fixpoint foldM {A B} (f : A -> B -> res A) (l : list B) (a : A) : res A :=
  match l with
  | [] => Ok a
  | x :: l' => match f a x with Ok a' => foldM f l' a' | Throw e => Throw e end
  end.

(** [new Set] filled in order: first occurrences kept *)
Fixpoint set_add_all (acc l : list Z) : list Z :=
  match l with
  | [] => acc
  | x :: l' => set_add_all (if bool_decide (x ∈ acc) then acc else acc ++ [x]) l'
  end.

Section Trees.

(** The radix tree ([trees/radix.ts]), the AVL tree ([trees/avl.ts]), the
    interning of document ids ([document-id.ts]) and [intersect]
    ([utils.ts]) are imported by the index; they are parameters here, so
    every theorem below holds whatever they do. *)
Context {RadixNode AVLNode : Type}.
Variable radixCreate : RadixNode.
Variable radixInsert : RadixNode -> string -> Z -> RadixNode.
Variable radixRemoveDocument : RadixNode -> string -> Z -> RadixNode.
Variable radixFind : RadixNode -> FindParams -> list (string * list Z).
Variable avlCreate : Q -> list Z -> AVLNode.
Variable avlInsert : AVLNode -> Q -> list Z -> AVLNode.
Variable avlRemoveDocument : AVLNode -> Z -> Q -> AVLNode.
Variable avlFind : AVLNode -> Q -> option (list Z).
Variable avlGreaterThan : AVLNode -> Q -> bool -> list Z.
Variable avlLessThan : AVLNode -> Q -> bool -> list Z.
Variable avlRangeSearch : AVLNode -> Q -> Q -> list Z.
Variable getInternalDocumentId : string -> Z.
Variable intersect : list (list Z) -> list Z.

Inductive IndexNode :=
  | Radix (r : RadixNode)
  | AVL (a : AVLNode)
  | Bool (b : BooleanIndex).

(** [frequencies[p][d]] and [fieldLengths[p][d]] may hold [undefined]
    ([None]) after a removal. *)
Record Index := mkIndex {
  indexes : gmap string IndexNode;
  searchableProperties : list string;
  searchablePropertiesWithTypes : gmap string SearchableType;
  frequencies : gmap string (gmap Z (option (gmap string jsnum)));
  tokenOccurrencies : gmap string (gmap string jsnum);
  avgFieldLength : gmap string jsnum;
  fieldLengths : gmap string (gmap Z (option jsnum))
}.

Definition set_indexes (idx : Index) m :=
  mkIndex m (searchableProperties idx) (searchablePropertiesWithTypes idx)
    (frequencies idx) (tokenOccurrencies idx) (avgFieldLength idx) (fieldLengths idx).
Definition set_frequencies (idx : Index) m :=
  mkIndex (indexes idx) (searchableProperties idx) (searchablePropertiesWithTypes idx)
    m (tokenOccurrencies idx) (avgFieldLength idx) (fieldLengths idx).
Definition set_tokenOccurrencies (idx : Index) m :=
  mkIndex (indexes idx) (searchableProperties idx) (searchablePropertiesWithTypes idx)
    (frequencies idx) m (avgFieldLength idx) (fieldLengths idx).
Definition set_avgFieldLength (idx : Index) m :=
  mkIndex (indexes idx) (searchableProperties idx) (searchablePropertiesWithTypes idx)
    (frequencies idx) (tokenOccurrencies idx) m (fieldLengths idx).
Definition set_fieldLengths (idx : Index) m :=
  mkIndex (indexes idx) (searchableProperties idx) (searchablePropertiesWithTypes idx)
    (frequencies idx) (tokenOccurrencies idx) (avgFieldLength idx) m.

(** [create] on a schema without nested objects; types are given by name. *)
Fixpoint create_flat (schema : list (string * string)) (index : Index) : res Index :=
  match schema with
  | [] => Ok index
  | (path, ty) :: rest =>
      let reg idx t := mkIndex (indexes idx) (searchableProperties idx ++ [path])
                         (<[path := t]> (searchablePropertiesWithTypes idx))
                         (frequencies idx) (tokenOccurrencies idx)
                         (avgFieldLength idx) (fieldLengths idx) in
      let node idx n := set_indexes idx (<[path := n]> (indexes idx)) in
      let boolean := node index (Bool (mkBooleanIndex [] [])) in
      let number := node index (AVL (avlCreate 0 [])) in
      let str := mkIndex (<[path := Radix radixCreate]> (indexes index))
                   (searchableProperties index) (searchablePropertiesWithTypes index)
                   (<[path := ∅]> (frequencies index))
                   (<[path := ∅]> (tokenOccurrencies index))
                   (<[path := JNum 0]> (avgFieldLength index))
                   (<[path := ∅]> (fieldLengths index)) in
      let next :=
        if String.eqb ty "boolean" then Ok (reg boolean (Scalar T_boolean))
        else if String.eqb ty "boolean[]" then Ok (reg boolean (ArrayOf T_boolean))
        else if String.eqb ty "number" then Ok (reg number (Scalar T_number))
        else if String.eqb ty "number[]" then Ok (reg number (ArrayOf T_number))
        else if String.eqb ty "string" then Ok (reg str (Scalar T_string))
        else if String.eqb ty "string[]" then Ok (reg str (ArrayOf T_string))
        else Throw "INVALID_SCHEMA_TYPE" in
      match next with Ok idx => create_flat rest idx | Throw e => Throw e end
  end.

Definition emptyIndex : Index := mkIndex ∅ [] ∅ ∅ ∅ ∅ ∅.

(** ** BM25 bookkeeping *)

Definition insertDocumentScoreParameters (index : Index) (prop id : string)
    (tokens : list string) (docsCount : Z) : res Index :=
  let internalId := getInternalDocumentId id in
  let avg := jdiv (jadd (jmul (nullish (avgFieldLength index !! prop) (JNum 0))
                             (jsub (of_Z docsCount) (of_Z 1)))
                        (of_nat (length tokens)))
                  (of_Z docsCount) in
  let index := set_avgFieldLength index (<[prop := avg]> (avgFieldLength index)) in
  match fieldLengths index !! prop, frequencies index !! prop with
  | Some fl, Some fr =>
      let index := set_fieldLengths index
        (<[prop := <[internalId := Some (of_nat (length tokens))]> fl]> (fieldLengths index)) in
      Ok (set_frequencies index
        (<[prop := <[internalId := Some ∅]> fr]> (frequencies index)))
  | _, _ => Throw "TypeError"
  end.

Definition insertTokenScoreParameters (index : Index) (prop id : string)
    (tokens : list string) (token : string) : res Index :=
  let tokenFrequency := count_occ (fun a b : string => decide (a = b)) tokens token in
  let internalId := getInternalDocumentId id in
  let tf := jdiv (of_nat tokenFrequency) (of_nat (length tokens)) in
  match frequencies index !! prop with
  | Some fr =>
      match fr !! internalId with
      | Some (Some f) =>
          let index := set_frequencies index
            (<[prop := <[internalId := Some (<[token := tf]> f)]> fr]> (frequencies index)) in
          match tokenOccurrencies index !! prop with
          | Some occ =>
              let occ := if decide (token ∈ dom occ) then occ else <[token := JNum 0]> occ in
              let occ := <[token := jadd (nullish (occ !! token) (JNum 0)) (of_Z 1)]> occ in
              Ok (set_tokenOccurrencies index (<[prop := occ]> (tokenOccurrencies index)))
          | None => Throw "TypeError"
          end
      | _ => Throw "TypeError"
      end
  | None => Throw "TypeError"
  end.

Definition removeDocumentScoreParameters (index : Index) (prop id : string)
    (docsCount : Z) : res Index :=
  let internalId := getInternalDocumentId id in
  match fieldLengths index !! prop with
  | None => Throw "TypeError"
  | Some fl =>
      let avg := jdiv (jsub (jmul (num_or_nan (avgFieldLength index !! prop)) (of_Z docsCount))
                            (num_or_nan (mjoin (fl !! internalId))))
                      (jsub (of_Z docsCount) (of_Z 1)) in
      let index := set_avgFieldLength index (<[prop := avg]> (avgFieldLength index)) in
      let index := set_fieldLengths index
        (<[prop := <[internalId := None]> fl]> (fieldLengths index)) in
      match frequencies index !! prop with
      | None => Throw "TypeError"
      | Some fr =>
          Ok (set_frequencies index (<[prop := <[internalId := None]> fr]> (frequencies index)))
      end
  end.

Definition removeTokenScoreParameters (index : Index) (prop token : string) : res Index :=
  match tokenOccurrencies index !! prop with
  | None => Throw "TypeError"
  | Some occ =>
      Ok (set_tokenOccurrencies index
            (<[prop := <[token := jsub (num_or_nan (occ !! token)) (of_Z 1)]> occ]>
               (tokenOccurrencies index)))
  end.

(** ** insert and remove

    [tokenize] is the tokenizer passed to the call ([text, language,
    property] to tokens). A value of another type than the schema's never
    reaches these functions (documents are validated first); it is modelled
    as an error, as is a structure of another kind than the type's. *)

Definition insertScalar (index : Index) (prop id : string) (value : ScalarValue)
    (schemaType : ScalarType) (language : option string)
    (tokenize : string -> option string -> string -> list string)
    (docsCount : Z) : res Index :=
  let internalId := getInternalDocumentId id in
  match schemaType with
  | T_boolean =>
      match indexes index !! prop with
      | Some (Bool b) =>
          let key := truthy value in
          Ok (set_indexes index
                (<[prop := Bool (set_bucket b key (bucket b key ++ [internalId]))]>
                   (indexes index)))
      | _ => Throw "TypeError"
      end
  | T_number =>
      match indexes index !! prop, value with
      | Some (AVL a), VNumber q =>
          Ok (set_indexes index (<[prop := AVL (avlInsert a q [internalId])]> (indexes index)))
      | _, _ => Throw "TypeError"
      end
  | T_string =>
      match value with
      | VString s =>
          let tokens := tokenize s language prop in
          index ← insertDocumentScoreParameters index prop id tokens docsCount;
          foldM (fun index token =>
                   index ← insertTokenScoreParameters index prop id tokens token;
                   match indexes index !! prop with
                   | Some (Radix r) =>
                       Ok (set_indexes index
                             (<[prop := Radix (radixInsert r token internalId)]> (indexes index)))
                   | _ => Throw "TypeError"
                   end) tokens index
      | _ => Throw "TypeError"
      end
  end.

Definition insert (index : Index) (prop id : string) (value : SearchableValue)
    (schemaType : SearchableType) (language : option string)
    (tokenize : string -> option string -> string -> list string)
    (docsCount : Z) : res Index :=
  match schemaType, value with
  | Scalar t, VScalar v => insertScalar index prop id v t language tokenize docsCount
  | ArrayOf t, VArray elements =>
      foldM (fun index el => insertScalar index prop id el t language tokenize docsCount)
        elements index
  | _, _ => Throw "TypeError"
  end.

Definition removeScalar (index : Index) (prop id : string) (value : ScalarValue)
    (schemaType : ScalarType) (language : option string)
    (tokenize : string -> option string -> string -> list string)
    (docsCount : Z) : res Index :=
  let internalId := getInternalDocumentId id in
  match schemaType with
  | T_number =>
      match indexes index !! prop, value with
      | Some (AVL a), VNumber q =>
          Ok (set_indexes index
                (<[prop := AVL (avlRemoveDocument a internalId q)]> (indexes index)))
      | _, _ => Throw "TypeError"
      end
  | T_boolean =>
      match indexes index !! prop with
      | Some (Bool b) =>
          let booleanKey := truthy value in
          let position := indexOf (bucket b booleanKey) internalId in
          Ok (set_indexes index
                (<[prop := Bool (set_bucket b booleanKey
                                  (splice (bucket b booleanKey) position 1))]>
                   (indexes index)))
      | _ => Throw "TypeError"
      end
  | T_string =>
      match value with
      | VString s =>
          let tokens := tokenize s language prop in
          index ← removeDocumentScoreParameters index prop id docsCount;
          foldM (fun index token =>
                   index ← removeTokenScoreParameters index prop token;
                   match indexes index !! prop with
                   | Some (Radix r) =>
                       Ok (set_indexes index
                             (<[prop := Radix (radixRemoveDocument r token internalId)]>
                                (indexes index)))
                   | _ => Throw "TypeError"
                   end) tokens index
      | _ => Throw "TypeError"
      end
  end.

Definition remove (index : Index) (prop id : string) (value : SearchableValue)
    (schemaType : SearchableType) (language : option string)
    (tokenize : string -> option string -> string -> list string)
    (docsCount : Z) : res Index :=
  match schemaType, value with
  | Scalar t, VScalar v => removeScalar index prop id v t language tokenize docsCount
  | ArrayOf t, VArray elements =>
      foldM (fun index el => removeScalar index prop id el t language tokenize docsCount)
        elements index
  | _, _ => Throw "TypeError"
  end.

(** ** search and where-clause filtering *)

(** [search]: [calculateResultScores] is the one of the context's index
    component. *)
Definition search
    (calculateResultScores : Index -> string -> string -> list Z -> res (list (Z * jsnum)))
    (params_exact : bool) (params_tolerance : option Z)
    (index : Index) (prop term_ : string) : res (list (Z * jsnum)) :=
  if decide (prop ∈ dom (tokenOccurrencies index)) then
    match indexes index !! prop with
    | Some (Radix rootNode) =>
        let searchResult := radixFind rootNode (mkFindParams (Some term_) params_exact params_tolerance) in
        let ids := set_add_all [] (concat (map snd searchResult)) in
        calculateResultScores index prop term_ ids
    | _ => Throw "TypeError"
    end
  else Ok [].

(** [filtersMap[param].push(...ids)] *)
Fixpoint push_ids (m : list (string * list Z)) (param : string) (ids : list Z)
    : list (string * list Z) :=
  match m with
  | [] => []
  | (k, l) :: m' => if String.eqb k param then (k, l ++ ids) :: m'
                    else (k, l) :: push_ids m' param ids
  end.

(** the candidate ids of one where-clause entry *)
Definition filter_ids (tokenize : string -> option string -> string -> list string)
    (language : option string) (index : Index) (param : string) (operation : Filter)
    : res (list Z) :=
  let string_ids raws :=
    match indexes index !! param with
    | None => Throw "UNKNOWN_FILTER_PROPERTY"
    | Some (Radix idx) =>
        Ok (concat (map (fun raw =>
              let term_ := tokenize raw language param in
              concat (map snd (radixFind idx (mkFindParams (head term_) true None))))
            raws))
    | Some _ => Throw "TypeError"
    end in
  match operation with
  | FBool b =>
      match indexes index !! param with
      | None => Throw "UNKNOWN_FILTER_PROPERTY"
      | Some (Bool idx) => Ok (bucket idx b)
      | Some _ => Throw "TypeError"
      end
  | FString s => string_ids [s]
  | FStrings l => string_ids l
  | FOperation ops =>
      if Nat.ltb 1 (length ops) then Throw "INVALID_FILTER_OPERATION" else
      match indexes index !! param with
      | None => Throw "UNKNOWN_FILTER_PROPERTY"
      | Some (AVL node) =>
          match ops with
          | [] => Ok []
          | (opt, v) :: _ =>
              match v with
              | OVNumber q =>
                  if String.eqb opt "gt" then Ok (avlGreaterThan node q false)
                  else if String.eqb opt "gte" then Ok (avlGreaterThan node q true)
                  else if String.eqb opt "lt" then Ok (avlLessThan node q false)
                  else if String.eqb opt "lte" then Ok (avlLessThan node q true)
                  else if String.eqb opt "eq" then Ok (nullish (avlFind node q) [])
                  else if String.eqb opt "between" then Throw "TypeError"
                  else Ok []
              | OVRange r =>
                  if String.eqb opt "between" then
                    match r with
                    | mn :: mx :: _ => Ok (avlRangeSearch node mn mx)
                    | _ => Throw "TypeError"
                    end
                  else if String.eqb opt "gt" || String.eqb opt "gte" || String.eqb opt "lt"
                          || String.eqb opt "lte" || String.eqb opt "eq" then Throw "TypeError"
                  else Ok []
              end
          end
      | Some _ => Throw "TypeError"
      end
  end.

(** [searchByWhereClause]: [filtersMap] is built by [{[key]: [], ...acc}],
    so its keys come out in reverse order; the result intersects its
    values. *)
Definition searchByWhereClause (tokenize : string -> option string -> string -> list string)
    (language : option string) (index : Index) (filters : list (string * Filter))
    : res (list Z) :=
  let filtersMap := fold_left (fun acc key => (key, []) :: acc) (map fst filters) [] in
  fm ← foldM (fun fm '(param, operation) =>
                ids ← filter_ids tokenize language index param operation;
                Ok (push_ids fm param ids)) filters filtersMap;
  Ok (intersect (map snd fm)).

End Trees.

Arguments Index : clear implicits.
Arguments IndexNode : clear implicits.

End Index.

(** ** Collaborators outside this source, for concrete runs

    The theorems hold for any radix tree, AVL tree, id interning,
    [intersect], tokenizer and [localeCompare]; the runs below (witnesses
    and counterexamples) use the following small models. *)

Module Models.

(** Modelled from the spec: the radix tree of [trees/radix.ts] (section
    4.2), as the map from each stored term to the ids of its terminal node.
    [exact] returns the term's ids; otherwise every term the search term is
    a prefix of matches (fuzzy [tolerance] matching is not modelled). *)
Definition RadixModel := gmap string (list Z).

Definition radixCreate : RadixModel := ∅.

Definition radixInsert (r : RadixModel) (t : string) (id : Z) : RadixModel :=
  let ids := nullish (r !! t) [] in
  <[t := if bool_decide (id ∈ ids) then ids else ids ++ [id]]> r.

Definition radixRemoveDocument (r : RadixModel) (t : string) (id : Z) : RadixModel :=
  match r !! t with
  | None => r
  | Some ids =>
      match filter (fun x => x <> id) ids with
      | [] => delete t r
      | ids' => <[t := ids']> r
      end
  end.

Definition radixFind (r : RadixModel) (p : Index.FindParams) : list (string * list Z) :=
  match Index.term p with
  | None => []
  | Some t =>
      if Index.exact p then
        match r !! t with Some ids => [(t, ids)] | None => [] end
      else filter (fun kv => String.prefix t kv.1 = true) (map_to_list r)
  end.

(** Modelled from the spec: the AVL tree of [trees/avl.ts] (section 4.3),
    as its list of (key, ids) nodes; balancing is not modelled. *)
Definition AVLModel := list (Q * list Z).

Definition avlCreate (k : Q) (v : list Z) : AVLModel := [(k, v)].

Definition avlInsert (n : AVLModel) (k : Q) (v : list Z) : AVLModel :=
  if existsb (fun kv => qeqb kv.1 k) n
  then map (fun kv => if qeqb kv.1 k then (kv.1, kv.2 ++ v) else kv) n
  else n ++ [(k, v)].

Definition avlRemoveDocument (n : AVLModel) (id : Z) (k : Q) : AVLModel :=
  filter (fun kv => kv.2 <> [])
    (map (fun kv => if qeqb kv.1 k then (kv.1, filter (fun x => x <> id) kv.2) else kv) n).

Definition avlFind (n : AVLModel) (k : Q) : option (list Z) :=
  snd <$> list_find (fun kv => qeqb kv.1 k = true) n ≫= fun p => Some p.2.

Definition avlGreaterThan (n : AVLModel) (k : Q) (inclusive : bool) : list Z :=
  concat (map snd (filter (fun kv => (if inclusive then Qle_bool k kv.1 else qltb k kv.1) = true) n)).

Definition avlLessThan (n : AVLModel) (k : Q) (inclusive : bool) : list Z :=
  concat (map snd (filter (fun kv => (if inclusive then Qle_bool kv.1 k else qltb kv.1 k) = true) n)).

Definition avlRangeSearch (n : AVLModel) (mn mx : Q) : list Z :=
  concat (map snd (filter (fun kv => (Qle_bool mn kv.1 && Qle_bool kv.1 mx) = true) n)).

(** Modelled from the spec: the internal id store (section 3) after the
    external ids "d1" to "d4" were interned in that order (dense, from 1). *)
Fixpoint position_in (l : list string) (s : string) : option Z :=
  match l with
  | [] => None
  | x :: l' => if String.eqb x s then Some 0 else Z.succ <$> position_in l' s
  end.

Definition getInternalDocumentId (s : string) : Z :=
  match position_in ["d1"; "d2"; "d3"; "d4"] s with Some i => i + 1 | None => 0 end.

(** Modelled from the spec: [intersect] of [utils.ts], the ids of the first
    list found in every other list. *)
Definition intersect (ls : list (list Z)) : list Z :=
  match ls with
  | [] => []
  | l :: rest => filter (fun x => forallb (fun m => bool_decide (x ∈ m)) rest = true) l
  end.

(** Modelled from the spec: the tokenizer (section 4.1) with stop-words and
    stemming disabled on lower-case input: split on spaces, drop empty
    tokens, keep the first occurrence of each. *)
Fixpoint split_spaces (s : string) (cur : string) : list string :=
  match s with
  | EmptyString => [cur]
  | String c s' =>
      if Ascii.eqb c (Ascii.ascii_of_nat 32) then cur :: split_spaces s' ""
      else split_spaces s' (cur +:+ String c EmptyString)
  end.

Fixpoint dedup (acc l : list string) : list string :=
  match l with
  | [] => acc
  | x :: l' => dedup (if bool_decide (x ∈ acc) then acc else acc ++ [x]) l'
  end.

Definition tokenize (text : string) (_ : option string) (_ : string) : list string :=
  dedup [] (filter (fun t => t <> "") (split_spaces text "")).

(** Modelled from the spec: [localeCompare], as code-point order. *)
Definition localeCompare (_ : option string) (a b : string) : Z :=
  match String.compare a b with Lt => -1 | Eq => 0 | Gt => 1 end.

End Models.

(** The index functions over these models. *)
Module Run.

Abbreviation Idx := (Index.Index Models.RadixModel Models.AVLModel).

Definition create (schema : list (string * string)) : res Idx :=
  Index.create_flat Models.radixCreate Models.avlCreate schema Index.emptyIndex.

Definition insert := Index.insert Models.radixInsert Models.avlInsert
                       Models.getInternalDocumentId.
Definition remove := Index.remove Models.radixRemoveDocument Models.avlRemoveDocument
                       Models.getInternalDocumentId.
Definition removeDocumentScoreParameters :=
  @Index.removeDocumentScoreParameters Models.RadixModel Models.AVLModel
    Models.getInternalDocumentId.

(** the ids of every term, used as the context's scoring step in runs *)
Definition calculateResultScores (_ : Idx) (_ _ : string) (ids : list Z)
    : res (list (Z * jsnum)) :=
  Ok (map (fun i => (i, JNum 1)) ids).

Definition search := Index.search Models.radixFind calculateResultScores.
Definition searchByWhereClause :=
  Index.searchByWhereClause Models.radixFind Models.avlFind Models.avlGreaterThan
    Models.avlLessThan Models.avlRangeSearch Models.intersect.

Definition then_ {A} (m : res A) (f : A -> res A) : res A :=
  match m with Ok a => f a | Throw e => Throw e end.

End Run.

(** ** Properties used in the statements *)

Module Props.
Import Sorter.

(** the position recorded for an entry, when there is one *)
Definition pos_le (d : gmap string Z) (a b : string * Q) : Prop :=
  ∃ ia ib, d !! a.1 = Some ia ∧ d !! b.1 = Some ib ∧ ia <= ib.

Definition indexed (d : gmap string Z) (a : string * Q) : bool :=
  bool_decide (is_Some (d !! a.1)).

Definition is_true_entry (x : string * SortValue) : bool :=
  match x.2 with SVBoolean true => true | _ => false end.

Definition is_false_entry (x : string * SortValue) : bool :=
  match x.2 with SVBoolean false => true | _ => false end.

(** the order of a number property *)
Definition num_le (a b : string * SortValue) : Prop :=
  match a.2, b.2 with
  | SVNumber p, SVNumber q => (p <= q)%Q
  | _, _ => True
  end.

(** the order of a string property under a [localeCompare] *)
Definition str_le (lc : option string -> string -> string -> Z) (lang : option string)
    (a b : string * SortValue) : Prop :=
  match a.2, b.2 with
  | SVString s, SVString u => 0 <= lc lang u s
  | _, _ => True
  end.

Definition antisymmetric_compare (lc : string -> string -> Z) : Prop :=
  ∀ a b, lc a b < 0 -> 0 <= lc b a.

(** every [false] entry comes before every [true] entry *)
Definition falses_before_trues (l : list (string * SortValue)) : Prop :=
  ∀ i j x y, l !! i = Some x -> l !! j = Some y ->
    is_false_entry x = true -> is_true_entry y = true -> (i < j)%nat.

(** What holds of a property [ps'] produced by sorting [ps]: no id that
    was pending removal is left; the entries are in the order of the
    property's type; every entry's id maps to its position, and an id that
    has an entry maps to [i] exactly when the entry at [i] is its own. *)
Definition consistent_after_sort (lc : option string -> string -> string -> Z)
    (lang : option string) (ps ps' : PropertySort) : Prop :=
  (∀ x, x ∈ orderedDocs ps' -> orderedDocsToRemove ps !! x.1 = None) ∧
  (type ps' = ST_number -> Sorted num_le (orderedDocs ps')) ∧
  (type ps' = ST_string -> antisymmetric_compare (lc lang) ->
     Sorted (str_le lc lang) (orderedDocs ps')) ∧
  (type ps' = ST_boolean -> falses_before_trues (orderedDocs ps')) ∧
  (∀ i x, orderedDocs ps' !! i = Some x -> docs ps' !! x.1 = Some (Z.of_nat i)) ∧
  (∀ id i, id ∈ map fst (orderedDocs ps') ->
     docs ps' !! id = Some (Z.of_nat i) <-> ∃ v, orderedDocs ps' !! i = Some (id, v)).

(** the statement of the specification: [docs[p][id] == i] iff
    [orderedDocs[p][i].id == id] *)
Definition positions_match (ps : PropertySort) : Prop :=
  ∀ id i, docs ps !! id = Some (Z.of_nat i) <-> ∃ v, orderedDocs ps !! i = Some (id, v).


(** the schema type name of a sortable type *)
Definition sort_type_name (t : SortType) : string :=
  match t with ST_string => "string" | ST_number => "number" | ST_boolean => "boolean" end.

(** the type names [create] and [innerCreate] accept *)
Definition schema_type_names : list string :=
  ["boolean"; "number"; "string"; "boolean[]"; "number[]"; "string[]"].
End Props.

Module IndexProps.
Import Index.

Section Stats.
Context {RadixNode AVLNode : Type}.
Variable radixInsert : RadixNode -> string -> Z -> RadixNode.
Variable radixRemoveDocument : RadixNode -> string -> Z -> RadixNode.
Variable avlInsert : AVLNode -> Q -> list Z -> AVLNode.
Variable avlRemoveDocument : AVLNode -> Z -> Q -> AVLNode.
Variable getInternalDocumentId : string -> Z.
Variable tokenize : string -> option string -> string -> list string.

(** [frequencies[p][d][t] > 0] *)
Definition tf_positive (fo : option (gmap string jsnum)) (t : string) : bool :=
  match fo with
  | Some f => match f !! t with Some x => jgt0 x | None => false end
  | None => false
  end.

(** [|{d : frequencies[p][d][t] > 0}|] *)
Definition docs_with_token (fr : gmap Z (option (gmap string jsnum))) (t : string) : nat :=
  size (filter (fun kv => tf_positive kv.2 t = true) fr).

(** the document-frequency invariant, an absent entry read as 0 *)
Definition occurrences_consistent (idx : Index RadixNode AVLNode) : Prop :=
  ∀ p fr occ, frequencies idx !! p = Some fr -> tokenOccurrencies idx !! p = Some occ ->
    ∀ t, jeq (nullish (occ !! t) (JNum 0)) (of_nat (docs_with_token fr t)).

(** the document has no frequency map on [prop] *)
Definition not_indexed (idx : Index RadixNode AVLNode) (prop : string) (i : Z) : bool :=
  match frequencies idx !! prop with
  | Some fr => match fr !! i with Some (Some _) => false | _ => true end
  | None => true
  end.

(** One insert or remove of a scalar value: a string value is inserted for
    a document not indexed on the property and removed with the tokens it
    was inserted with (the terms of positive frequency); the tokenizer
    returns no duplicate. *)
Inductive scalar_step : Index RadixNode AVLNode -> Index RadixNode AVLNode -> Prop :=
  | step_insert_string idx idx' prop id s lang dc :
      NoDup (tokenize s lang prop) ->
      not_indexed idx prop (getInternalDocumentId id) = true ->
      insert radixInsert avlInsert getInternalDocumentId idx prop id
        (VScalar (VString s)) (Scalar T_string) lang tokenize dc = Ok idx' ->
      scalar_step idx idx'
  | step_remove_string idx idx' prop id s lang dc fr f :
      NoDup (tokenize s lang prop) ->
      frequencies idx !! prop = Some fr ->
      fr !! getInternalDocumentId id = Some (Some f) ->
      (∀ t, tf_positive (Some f) t = true <-> t ∈ tokenize s lang prop) ->
      remove radixRemoveDocument avlRemoveDocument getInternalDocumentId idx prop id
        (VScalar (VString s)) (Scalar T_string) lang tokenize dc = Ok idx' ->
      scalar_step idx idx'
  | step_insert_other idx idx' prop id v t lang dc :
      t <> T_string ->
      insert radixInsert avlInsert getInternalDocumentId idx prop id
        (VScalar v) (Scalar t) lang tokenize dc = Ok idx' ->
      scalar_step idx idx'
  | step_remove_other idx idx' prop id v t lang dc :
      t <> T_string ->
      remove radixRemoveDocument avlRemoveDocument getInternalDocumentId idx prop id
        (VScalar v) (Scalar t) lang tokenize dc = Ok idx' ->
      scalar_step idx idx'.

End Stats.

(** The index with property [p]'s entries replaced in every map; every
    other property and the schema are those of [idx]. *)
Definition with_prop {R A : Type} (idx : Index R A) (p : string) (r : R)
    (frp : gmap Z (option (gmap string jsnum))) (occ : gmap string jsnum)
    (avg : jsnum) (flp : gmap Z (option jsnum)) : Index R A :=
  mkIndex (<[p := Radix r]> (indexes idx)) (searchableProperties idx)
    (searchablePropertiesWithTypes idx) (<[p := frp]> (frequencies idx))
    (<[p := occ]> (tokenOccurrencies idx)) (<[p := avg]> (avgFieldLength idx))
    (<[p := flp]> (fieldLengths idx)).

(** the effect of [insertTokenScoreParameters] and of
    [removeTokenScoreParameters] on [tokenOccurrencies[p]], token by token *)
Definition occ_step_add (occ : gmap string jsnum) (t : string) : gmap string jsnum :=
  let occ := if decide (t ∈ dom occ) then occ else <[t := JNum 0]> occ in
  <[t := jadd (nullish (occ !! t) (JNum 0)) (of_Z 1)]> occ.

Definition occ_add (ts : list string) (occ : gmap string jsnum) : gmap string jsnum :=
  fold_left occ_step_add ts occ.

Definition occ_step_sub (occ : gmap string jsnum) (t : string) : gmap string jsnum :=
  <[t := jsub (num_or_nan (occ !! t)) (of_Z 1)]> occ.

Definition occ_sub (ts : list string) (occ : gmap string jsnum) : gmap string jsnum :=
  fold_left occ_step_sub ts occ.

(** the term frequency [insertTokenScoreParameters] stores *)
Definition tf_of (tokens : list string) (t : string) : jsnum :=
  jdiv (of_nat (count_occ (fun a b : string => decide (a = b)) tokens t))
    (of_nat (length tokens)).

Definition freq_add (tokens ts : list string) (f : gmap string jsnum) : gmap string jsnum :=
  fold_left (fun f t => <[t := tf_of tokens t]> f) ts f.

(** [tokenOccurrencies[p]] read back as before: a token that had a count has
    an equal one; a token of the document that had none now has 0; any
    other token is still absent. *)
Definition occ_restored (occ occ2 : gmap string jsnum) (tokens : list string) : Prop :=
  ∀ t, match occ !! t with
       | Some v => ∃ v', occ2 !! t = Some v' ∧ jeq v' v
       | None => (t ∈ tokens ∧ (∃ v', occ2 !! t = Some v' ∧ jeq v' (JNum 0))) ∨
                 (¬ (t ∈ tokens) ∧ occ2 !! t = None)
       end.


Section Schema.
Context {RadixNode AVLNode : Type}.
Variable radixCreate : RadixNode.
Variable avlCreate : Q -> list Z -> AVLNode.

(** the schema type name of a searchable type *)
Definition searchable_type_name (t : SearchableType) : string :=
  match t with
  | Scalar T_string => "string" | ArrayOf T_string => "string[]"
  | Scalar T_number => "number" | ArrayOf T_number => "number[]"
  | Scalar T_boolean => "boolean" | ArrayOf T_boolean => "boolean[]"
  end.

Definition inner_type (t : SearchableType) : ScalarType :=
  match t with Scalar s | ArrayOf s => s end.

(** the node [create] makes for a property of type [t] *)
Definition node_of (t : SearchableType) : IndexNode RadixNode AVLNode :=
  match inner_type t with
  | T_string => Radix radixCreate
  | T_number => AVL (avlCreate 0 [])
  | T_boolean => Bool (mkBooleanIndex [] [])
  end.

End Schema.

Section Documents.
Context {RadixNode AVLNode : Type}.
Variable getInternalDocumentId : string -> Z.

(** documents (an id and the tokens of its value on [prop]) inserted one
    after the other, [docsCount] counting the documents stored so far *)
Fixpoint insertDocumentsScoreParameters (index : Index RadixNode AVLNode) (prop : string)
    (ds : list (string * list string)) (docsCount : Z) : res (Index RadixNode AVLNode) :=
  match ds with
  | [] => Ok index
  | (id, tokens) :: ds' =>
      index ← insertDocumentScoreParameters getInternalDocumentId index prop id tokens docsCount;
      insertDocumentsScoreParameters index prop ds' (docsCount + 1)
  end.

End Documents.
End IndexProps.

(** ** Concrete runs *)

Module Fixtures.
Import Sorter.

Definition bind_sorter (m : res Sorter) (f : Sorter -> res Sorter) : res Sorter :=
  match m with Ok a => f a | Throw e => Throw e end.

Definition created (t : string) : res Sorter := innerCreate_flat [("p", t)] [].

(** three numbers inserted and sorted, then "c" removed and sorted again *)
Definition three_numbers : res Sorter :=
  bind_sorter (bind_sorter (bind_sorter (bind_sorter (created "number")
    (fun s => Sorter.insert s "p" "a" (SVNumber 1) None))
    (fun s => Sorter.insert s "p" "b" (SVNumber 3) None))
    (fun s => Sorter.insert s "p" "c" (SVNumber 2) None))
    (fun s => sortBy_prepare Models.localeCompare s "p").

Definition after_removal : res Sorter :=
  bind_sorter (bind_sorter three_numbers (fun s => Sorter.remove s "p" "c"))
    (fun s => sortBy_prepare Models.localeCompare s "p").

(** [true] inserted first, then [false] *)
Definition two_booleans : res Sorter :=
  bind_sorter (bind_sorter (created "boolean")
    (fun s => Sorter.insert s "p" "a" (SVBoolean true) None))
    (fun s => Sorter.insert s "p" "b" (SVBoolean false) None).

Definition sort_of (m : res Sorter) : option PropertySort :=
  match m with Ok s => sorts s !! "p" | Throw _ => None end.

Definition state_of (m : res Sorter) : Sorter :=
  match m with Ok s => s | Throw _ => mkSorter None true false [] ∅ ∅ end.

(** the sort of "p" in a sorter state *)
Definition sort_in (st : Sorter) : PropertySort :=
  nullish (sorts st !! "p") (emptyPropertySort ST_number).
(** [three_numbers] with "c" removed, not sorted again *)
Definition c_removed : res Sorter :=
  bind_sorter three_numbers (fun s => Sorter.remove s "p" "c").
(** [three_numbers] with "d" inserted, removed, then sorted *)
Definition d_inserted : res Sorter :=
  bind_sorter three_numbers (fun s => Sorter.insert s "p" "d" (SVNumber 5) None).
Definition d_removed : res Sorter :=
  bind_sorter d_inserted (fun s => Sorter.remove s "p" "d").
Definition d_sorted : res Sorter :=
  bind_sorter d_removed (fun s => sortBy_prepare Models.localeCompare s "p").
Definition four_fields : list (string * string) :=
  [("a", "string"); ("b", "number[]"); ("c", "boolean"); ("d", "number")].
End Fixtures.

(** index runs: a string, a number and a boolean property *)
Module IndexFixtures.
Import Index.

Definition idx_of (m : res Run.Idx) : Run.Idx :=
  match m with Ok i => i | Throw _ => emptyIndex end.

Definition three_props : res Run.Idx :=
  Run.create [("t", "string"); ("n", "number"); ("b", "boolean")].

(** "d1" with text "hello" inserted as the only document, then removed *)
Definition one_doc : res Run.Idx :=
  Run.then_ three_props (fun i =>
    Run.insert i "t" "d1" (VScalar (VString "hello")) (Scalar T_string) None
      Models.tokenize 1).

Definition one_doc_removed : res Run.Idx :=
  Run.then_ one_doc (fun i =>
    Run.remove i "t" "d1" (VScalar (VString "hello")) (Scalar T_string) None
      Models.tokenize 1).

(** "d1" and "d2" inserted with [true] on "b" *)
Definition two_true : res Run.Idx :=
  Run.then_ (Run.then_ three_props (fun i =>
    Run.insert i "b" "d1" (VScalar (VBoolean true)) (Scalar T_boolean) None
      Models.tokenize 1)) (fun i =>
    Run.insert i "b" "d2" (VScalar (VBoolean true)) (Scalar T_boolean) None
      Models.tokenize 2).

(** then "d3", never inserted, removed with [true] *)
Definition two_true_remove_d3 : res Run.Idx :=
  Run.then_ two_true (fun i =>
    Run.remove i "b" "d3" (VScalar (VBoolean true)) (Scalar T_boolean) None
      Models.tokenize 2).

Definition bool_node (m : res Run.Idx) : option BooleanIndex :=
  match m with
  | Ok i => match indexes i !! "b" with Some (Bool b) => Some b | _ => None end
  | Throw _ => None
  end.

Definition fl_of (m : res Run.Idx) (p : string) : gmap Z (option jsnum) :=
  nullish (fieldLengths (idx_of m) !! p) ∅.
Definition fr_of (m : res Run.Idx) (p : string) : gmap Z (option (gmap string jsnum)) :=
  nullish (frequencies (idx_of m) !! p) ∅.
Definition bool_of (m : res Run.Idx) : BooleanIndex :=
  nullish (bool_node m) (mkBooleanIndex [] []).
Definition occ_of (m : res Run.Idx) (p : string) : gmap string jsnum :=
  nullish (tokenOccurrencies (idx_of m) !! p) ∅.
Definition radix_of (m : res Run.Idx) (p : string) : Models.RadixModel :=
  match indexes (idx_of m) !! p with Some (Radix r) => r | _ => ∅ end.

(** "d1" with the [string[]] value [["a", "a"]] on "s" *)
Definition two_same : res Run.Idx :=
  Run.then_ (Run.create [("s", "string[]")]) (fun i =>
    Run.insert i "s" "d1" (VArray [VString "a"; VString "a"]) (ArrayOf T_string) None
      Models.tokenize 1).

(** [[true, false, true]] inserted for "d1" on the [boolean[]] property "b" *)
Definition bool_array : res Run.Idx := Run.create [("b", "boolean[]")].
Definition three_booleans : list ScalarValue := [VBoolean true; VBoolean false; VBoolean true].
Definition bool_array_inserted : res Run.Idx :=
  Run.then_ bool_array (fun i =>
    Run.insert i "b" "d1" (VArray three_booleans) (ArrayOf T_boolean) None Models.tokenize 1).
Definition string_array : res Run.Idx := Run.create [("s", "string[]")].
(** "d1" with "ab ac" and "d2" with "ab" on "t" *)
Definition two_texts : res Run.Idx :=
  Run.then_ (Run.then_ three_props (fun i =>
    Run.insert i "t" "d1" (VScalar (VString "ab ac")) (Scalar T_string) None
      Models.tokenize 1)) (fun i =>
    Run.insert i "t" "d2" (VScalar (VString "ab")) (Scalar T_string) None
      Models.tokenize 2).
Definition three_fields : list (string * string) :=
  [("t", "string"); ("n", "number[]"); ("b", "boolean")].
End IndexFixtures.

(** * Proofs: the sorter *)

Module SortFacts.

Lemma qltb_true (a b : Q) : qltb a b = true <-> (a < b)%Q.
Proof.
  unfold qltb. rewrite Bool.negb_true_iff.
  split; intros H.
  - apply Qnot_le_lt. intros Hle. apply Qle_bool_iff in Hle. congruence.
  - destruct (Qle_bool b a) eqn:E; [|done]. apply Qle_bool_iff in E.
    exfalso. apply (Qlt_not_le a b); assumption.
Qed.

Lemma qltb_false (a b : Q) : qltb a b = false <-> (b <= a)%Q.
Proof.
  unfold qltb. rewrite Bool.negb_false_iff. apply Qle_bool_iff.
Qed.

Lemma jlt0_of_Z (z : Z) : jlt0 (of_Z z) = Z.ltb z 0.
Proof.
  unfold jlt0, of_Z, qltb, Qle_bool. simpl. rewrite Z.mul_1_r.
  destruct (Z.ltb_spec z 0), (Z.leb_spec 0 z); simpl; lia.
Qed.

Section Generic.
Context {A : Type}.
Implicit Types (cmp : A -> A -> jsnum) (l acc : list A).

Lemma sort_insert_perm cmp x l : sort_insert cmp x l ≡ₚ x :: l.
Proof.
  induction l as [|y l IH]; simpl; [done|].
  destruct (jlt0 (cmp x y)); [done|].
  etrans; [apply perm_skip, IH|apply perm_swap].
Qed.

Lemma fold_sort_perm cmp l acc :
  fold_left (fun acc x => sort_insert cmp x acc) l acc ≡ₚ acc ++ l.
Proof.
  revert acc; induction l as [|x l IH]; intros acc; simpl.
  - by rewrite app_nil_r.
  - rewrite IH, sort_insert_perm. simpl. by rewrite Permutation_middle.
Qed.

Lemma js_sort_perm cmp l : js_sort cmp l ≡ₚ l.
Proof. unfold js_sort. by rewrite fold_sort_perm. Qed.

(** Insertion keeps a list sorted for a relation the comparator decides on
    the elements at hand. *)
Lemma sort_insert_sorted (P : A -> Prop) (R : A -> A -> Prop) cmp x l :
  P x ->
  (∀ y, P y -> (jlt0 (cmp x y) = true -> R x y) ∧ (jlt0 (cmp x y) = false -> R y x)) ->
  Forall P l -> Sorted R l -> Sorted R (sort_insert cmp x l).
Proof.
  intros Px Hc HP HS. induction HS as [|y l HS IH Hhd]; simpl.
  - repeat constructor.
  - inversion HP as [|? ? Py HPl]; subst.
    destruct (jlt0 (cmp x y)) eqn:E.
    + constructor; [constructor; auto|constructor; by apply Hc].
    + constructor; [by apply IH|].
      destruct l as [|z l]; simpl.
      * constructor. by apply Hc.
      * destruct (jlt0 (cmp x z)); constructor.
        -- by apply Hc.
        -- by inversion Hhd.
Qed.

Lemma js_sort_sorted (P : A -> Prop) (R : A -> A -> Prop) cmp l :
  (∀ x y, P x -> P y ->
     (jlt0 (cmp x y) = true -> R x y) ∧ (jlt0 (cmp x y) = false -> R y x)) ->
  Forall P l -> Sorted R (js_sort cmp l).
Proof.
  intros Hc HP. unfold js_sort.
  assert (Hgen : ∀ acc, Forall P acc -> Sorted R acc ->
    Sorted R (fold_left (fun acc x => sort_insert cmp x acc) l acc)).
  { induction l as [|x l IH]; intros acc Hacc HS; simpl; [done|].
    inversion HP as [|? ? Px HPl]; subst.
    apply IH; [done| |].
    - rewrite sort_insert_perm. by constructor.
    - eapply sort_insert_sorted; eauto. }
  apply Hgen; constructor.
Qed.

End Generic.

Lemma NoDup_map_fst_filter {A B} (P : A * B -> Prop) `{∀ x, Decision (P x)}
    (l : list (A * B)) :
  NoDup (map fst l) -> NoDup (map fst (filter P l)).
Proof.
  induction l as [|x l IH]; simpl; [done|].
  intros Hnd. apply NoDup_cons in Hnd as [Hx Hnd].
  rewrite filter_cons. case_decide; simpl; [|by apply IH].
  apply NoDup_cons. split; [|by apply IH].
  intros Hin. apply Hx. apply list_elem_of_In. apply list_elem_of_In in Hin.
  apply in_map_iff in Hin as [y [Hy Hiny]]. apply in_map_iff.
  exists y. split; [done|]. apply list_elem_of_In.
  apply list_elem_of_In in Hiny. apply list_elem_of_filter in Hiny. tauto.
Qed.

End SortFacts.

Module SorterProofs.
Import Sorter Props Fixtures SortFacts.

(** ** C1 *)

(** Claim C1 (a source bug): for an enabled sorter, a property [p] and an
    id recorded in [docs[p]] at position 0, [remove(p, id)] returns the
    sorter unchanged: the id stays in [docs[p]] and is not added to the
    pending-removal set, because [!index] reads position 0 as absent. *)
Theorem sorter_remove_position_zero_noop (st : Sorter) (p id : string) (ps : PropertySort) :
  enabled st = true ->
  sorts st !! p = Some ps ->
  docs ps !! id = Some 0 ->
  Sorter.remove st p id = Ok st.
Proof.
  intros Hen Hps Hid. unfold Sorter.remove. rewrite Hen, Hps, Hid. reflexivity.
Qed.

Lemma sorter_remove_position_zero_noop_witness :
  enabled (state_of three_numbers) = true ∧
  sorts (state_of three_numbers) !! "p" = sort_of three_numbers ∧
  (∃ ps, sort_of three_numbers = Some ps ∧ docs ps !! "a" = Some 0) ∧
  Sorter.remove (state_of three_numbers) "p" "a" = Ok (state_of three_numbers).
Proof.
  split; [vm_compute; reflexivity|].
  split; [vm_compute; reflexivity|].
  split.
  - eexists. split; [vm_compute; reflexivity|]. vm_compute. reflexivity.
  - apply (sorter_remove_position_zero_noop (state_of three_numbers) "p" "a"
      (match sort_of three_numbers with Some ps => ps | None => emptyPropertySort ST_number end)).
    + vm_compute. reflexivity.
    + vm_compute. reflexivity.
    + vm_compute. reflexivity.
Defined.

(** ** C3 *)

Lemma booleanSort_eq (x y : string * SortValue) :
  booleanSort x y = if is_true_entry y then of_Z (-1) else of_Z 1.
Proof. destruct y as [? [s|q|[|]]]; reflexivity. Qed.

Lemma jlt0_booleanSort (x y : string * SortValue) :
  jlt0 (booleanSort x y) = is_true_entry y.
Proof. rewrite booleanSort_eq. by destruct (is_true_entry y). Qed.

Lemma sort_insert_boolean x F T :
  Forall (fun y => is_true_entry y = false) F ->
  Forall (fun y => is_true_entry y = true) T ->
  sort_insert booleanSort x (F ++ T) = F ++ x :: T.
Proof.
  intros HF HT. induction HF as [|y F Hy HF IH]; cbn [app sort_insert].
  - destruct T as [|y T]; [done|]. cbn [sort_insert].
    inversion HT as [|? ? Hy ?]; subst. by rewrite jlt0_booleanSort, Hy.
  - by rewrite jlt0_booleanSort, Hy, IH.
Qed.

Lemma js_sort_boolean_split l :
  ∃ F T, js_sort booleanSort l = F ++ T ∧
    Forall (fun y => is_true_entry y = false) F ∧
    Forall (fun y => is_true_entry y = true) T.
Proof.
  unfold js_sort.
  assert (Hgen : ∀ acc F T, acc = F ++ T ->
    Forall (fun y => is_true_entry y = false) F ->
    Forall (fun y => is_true_entry y = true) T ->
    ∃ F' T', fold_left (fun acc x => sort_insert booleanSort x acc) l acc = F' ++ T' ∧
      Forall (fun y => is_true_entry y = false) F' ∧
      Forall (fun y => is_true_entry y = true) T').
  { induction l as [|x l IH]; intros acc F T -> HF HT; simpl; [eauto|].
    rewrite sort_insert_boolean by done.
    destruct (is_true_entry x) eqn:Ex.
    - apply (IH _ F (x :: T)); [done|done|by constructor].
    - apply (IH _ (F ++ [x]) T); [by rewrite <- app_assoc| |done].
      apply Forall_app. split; [done|by constructor]. }
  apply (Hgen [] [] []); [done|constructor|constructor].
Qed.

Lemma js_sort_boolean_falses_first l :
  falses_before_trues (js_sort booleanSort l).
Proof.
  destruct (js_sort_boolean_split l) as (F & T & -> & HF & HT).
  intros i j x y Hi Hj Hx Hy.
  assert (i < length F)%nat.
  { destruct (decide (i < length F)%nat) as [?|Hge]; [done|].
    rewrite lookup_app_r in Hi by lia.
    rewrite Forall_lookup in HT. apply HT in Hi.
    destruct x as [? [s|q|[|]]]; unfold is_true_entry, is_false_entry in *; simpl in *; congruence. }
  assert (length F <= j)%nat.
  { destruct (decide (length F <= j)%nat) as [?|Hlt]; [done|].
    rewrite lookup_app_l in Hj by lia.
    rewrite Forall_lookup in HF. apply HF in Hj. congruence. }
  lia.
Qed.

(** Claim C3 (amended): for a boolean property, after the ensure-sorted step
    every entry whose value is [false] precedes every entry whose value is
    [true] in [orderedDocs] ([booleanSort] ranks [false] first). *)
Theorem boolean_sort_false_first (lc : option string -> string -> string -> Z)
    (lang : option string) (ps : PropertySort) :
  type ps = ST_boolean ->
  falses_before_trues (orderedDocs (ensurePropertyIsSorted lc lang ps)).
Proof.
  intros Ht. unfold ensurePropertyIsSorted. simpl. rewrite Ht.
  apply js_sort_boolean_falses_first.
Qed.

Lemma boolean_sort_false_first_witness :
  (∃ ps, sort_of two_booleans = Some ps ∧ type ps = ST_boolean) ∧
  falses_before_trues (orderedDocs (ensurePropertyIsSorted Models.localeCompare None
    (match sort_of two_booleans with Some ps => ps | None => emptyPropertySort ST_boolean end))).
Proof.
  split.
  - eexists. split; [vm_compute; reflexivity|]. reflexivity.
  - apply boolean_sort_false_first. vm_compute. reflexivity.
Defined.

(** Counterexample to C3 as stated: [true] for "a" is inserted, then [false]
    for "b"; after the ensure-sorted step of [sortBy] the [false] entry is
    first and the [true] entry second. *)
Lemma boolean_sort_true_first_counterexample :
  option_map orderedDocs
    (sort_of (bind_sorter two_booleans (fun s => sortBy_prepare Models.localeCompare s "p")))
  = Some [("b", SVBoolean false); ("a", SVBoolean true)].
Proof. vm_compute. reflexivity. Qed.


(** ** The steps [sortBy] and [save] run before they read a property *)

Lemma sortBy_prepare_eq lc st p ps :
  sorts st !! p = Some ps ->
  sortBy_prepare lc st p =
    Ok (ensureIsSorted lc (set_sorts st (<[p := deleteOrderedDocs ps]> (sorts st)))).
Proof. intros Hps. unfold sortBy_prepare, ensureOrderedDocsAreDeletedByProperty. by rewrite Hps. Qed.

Lemma ensureIsSorted_lookup lc st p :
  sorts (ensureIsSorted lc st) !! p =
    if isSorted st || negb (enabled st) then sorts st !! p
    else ensurePropertyIsSorted lc (language st) <$> sorts st !! p.
Proof.
  unfold ensureIsSorted.
  destruct (isSorted st), (enabled st); simpl; try reflexivity.
  by rewrite lookup_fmap.
Qed.

(** ** C8 *)

Section SortByOrder.
Variable d : gmap string Z.
Variable isDesc : bool.

Lemma indexed_Some a : indexed d a = true <-> is_Some (d !! a.1).
Proof. unfold indexed. by rewrite bool_decide_eq_true. Qed.

Lemma indexed_None a : indexed d a = false <-> d !! a.1 = None.
Proof.
  unfold indexed. rewrite bool_decide_eq_false.
  split; intros H; [by apply eq_None_not_Some|by rewrite H; intros [? ?]].
Qed.

Lemma sort_insert_unindexed x A :
  indexed d x = false -> Forall (fun a => indexed d a = false) A -> sort_insert (sortBy_cmp d isDesc) x A = A ++ [x].
Proof.
  intros Hx HA. apply indexed_None in Hx.
  induction HA as [|y A Hy HA IH]; [done|]. simpl.
  apply indexed_None in Hy. unfold sortBy_cmp at 1. rewrite Hx, Hy, jlt0_of_Z.
  simpl. by rewrite IH.
Qed.

Lemma sort_insert_split x P A :
  Forall (fun a => indexed d a = true) P -> Forall (fun a => indexed d a = false) A ->
  sort_insert (sortBy_cmp d isDesc) x (P ++ A) =
    if indexed d x then sort_insert (sortBy_cmp d isDesc) x P ++ A else P ++ A ++ [x].
Proof.
  intros HP HA. induction HP as [|y P Hy HP IH]; simpl.
  - destruct (indexed d x) eqn:Ex; [|by apply sort_insert_unindexed].
    destruct A as [|z A]; [done|]. simpl.
    inversion HA as [|? ? Hz _]; subst.
    apply indexed_Some in Ex as [ix Ex]. apply indexed_None in Hz.
    unfold sortBy_cmp at 1. by rewrite Ex, Hz, jlt0_of_Z.
  - destruct (indexed d x) eqn:Ex.
    + destruct (jlt0 ((sortBy_cmp d isDesc) x y)); simpl; [done|]. by rewrite IH.
    + apply indexed_Some in Hy as [iy Hy]. apply indexed_None in Ex.
      unfold sortBy_cmp at 1. rewrite Ex, Hy, jlt0_of_Z. simpl. by rewrite IH.
Qed.

Variable R : string * Q -> string * Q -> Prop.
Hypothesis HR : ∀ x y, indexed d x = true -> indexed d y = true ->
  (jlt0 ((sortBy_cmp d isDesc) x y) = true -> R x y) ∧ (jlt0 ((sortBy_cmp d isDesc) x y) = false -> R y x).

Lemma fold_sortBy l P A :
  Forall (fun a => indexed d a = true) P -> Forall (fun a => indexed d a = false) A -> Sorted R P ->
  ∃ P', fold_left (fun acc x => sort_insert (sortBy_cmp d isDesc) x acc) l (P ++ A) =
          P' ++ (A ++ filter (fun a => indexed d a = false) l) ∧
        P' ≡ₚ P ++ filter (fun a => indexed d a = true) l ∧
        Sorted R P' ∧ Forall (fun a => indexed d a = true) P'.
Proof.
  revert P A. induction l as [|x l IH]; intros P A HP HA HS; simpl.
  - exists P. rewrite !app_nil_r. done.
  - rewrite sort_insert_split by done. rewrite !filter_cons.
    destruct (indexed d x) eqn:Ex.
    + destruct (IH (sort_insert (sortBy_cmp d isDesc) x P) A) as (P' & Heq & Hperm & HS' & HP');
        [rewrite sort_insert_perm; by constructor|done|
         apply (sort_insert_sorted (fun a => indexed d a = true)); [exact Ex|intros y Hy; by apply HR|done|done]|].
      exists P'. rewrite decide_False by congruence. rewrite decide_True by done.
      split; [done|]. split; [|done].
      rewrite Hperm, sort_insert_perm. simpl. apply Permutation_middle.
    + destruct (IH P (A ++ [x])) as (P' & Heq & Hperm & HS' & HP');
        [done|apply Forall_app; split; [done|by constructor]|done|].
      exists P'. rewrite decide_True by done. rewrite decide_False by congruence.
      split; [rewrite Heq; by rewrite <- app_assoc|done].
Qed.

End SortByOrder.

Lemma sortBy_cmp_order (d : gmap string Z) (isDesc : bool) (x y : string * Q) :
  indexed d x = true -> indexed d y = true ->
  let R : string * Q -> string * Q -> Prop := if isDesc then flip (pos_le d) else pos_le d in
  (jlt0 (sortBy_cmp d isDesc x y) = true -> R x y) ∧
  (jlt0 (sortBy_cmp d isDesc x y) = false -> R y x).
Proof.
  intros Hx Hy R. apply indexed_Some in Hx as [ix Hx], Hy as [iy Hy].
  unfold R, sortBy_cmp, flip, pos_le. rewrite Hx, Hy.
  destruct isDesc; rewrite jlt0_of_Z; split; intros H;
    apply Z.ltb_lt in H || apply Z.ltb_ge in H; eexists _, _; repeat split; eauto; lia.
Qed.

Lemma filter_indexed_perm (d : gmap string Z) (l : list (string * Q)) :
  filter (fun a => indexed d a = true) l ++ filter (fun a => indexed d a = false) l ≡ₚ l.
Proof.
  induction l as [|x l IH]; [done|]. rewrite !filter_cons.
  destruct (indexed d x) eqn:Ex.
  - rewrite decide_True, decide_False by congruence. simpl. by rewrite IH.
  - rewrite decide_False, decide_True by congruence. by rewrite <- Permutation_middle, IH.
Qed.

(** Claim C8: for an enabled sorter and a sortable property [p], [sortBy]
    returns a permutation of [docIds]: first the ids recorded in [docs[p]]
    (the position map after the ensure steps), by ascending position, or
    descending for [DESC]; then the other ids in their order in [docIds]. *)
Theorem sortBy_orders_by_position (lc : option string -> string -> string -> Z)
    (st : Sorter) (docIds : list (string * Q)) (p : string) (order : SortOrder)
    (ps : PropertySort) :
  enabled st = true ->
  sorts st !! p = Some ps ->
  ∃ st' result ps',
    sortBy lc st docIds p order = Ok (st', result) ∧
    sorts st' !! p = Some ps' ∧
    result ≡ₚ docIds ∧
    ∃ l1, result = l1 ++ filter (fun a => indexed (docs ps') a = false) docIds ∧
      l1 ≡ₚ filter (fun a => indexed (docs ps') a = true) docIds ∧
      (order = ASC -> Sorted (pos_le (docs ps')) l1) ∧
      (order = DESC -> Sorted (flip (pos_le (docs ps'))) l1).
Proof.
  intros Hen Hps. unfold sortBy. rewrite Hen, Hps. simpl.
  rewrite (sortBy_prepare_eq _ _ _ _ Hps). simpl.
  set (st1 := set_sorts st (<[p:=deleteOrderedDocs ps]> (sorts st))).
  assert (∃ ps', sorts (ensureIsSorted lc st1) !! p = Some ps') as [ps' Hps'].
  { rewrite ensureIsSorted_lookup. unfold st1; simpl. rewrite lookup_insert_eq.
    destruct (_ || _); simpl; eauto. }
  rewrite Hps'. eexists _, _, ps'. split; [reflexivity|]. split; [done|].
  set (d := docs ps').
  destruct order; simpl.
  - destruct (fold_sortBy d false (pos_le d)
      (fun x y Hx Hy => sortBy_cmp_order d false x y Hx Hy) docIds [] [])
      as (P' & Heq & Hperm & HS & _); [constructor|constructor|constructor|].
    simpl in Heq. unfold js_sort. rewrite Heq. split.
    + rewrite Hperm. apply filter_indexed_perm.
    + exists P'. split; [done|]. split; [done|]. split; [done|discriminate].
  - destruct (fold_sortBy d true (flip (pos_le d))
      (fun x y Hx Hy => sortBy_cmp_order d true x y Hx Hy) docIds [] [])
      as (P' & Heq & Hperm & HS & _); [constructor|constructor|constructor|].
    simpl in Heq. unfold js_sort. rewrite Heq. split.
    + rewrite Hperm. apply filter_indexed_perm.
    + exists P'. split; [done|]. split; [done|]. split; [discriminate|done].
Qed.

Lemma sortBy_orders_by_position_witness :
  enabled (state_of three_numbers) = true ∧
  sorts (state_of three_numbers) !! "p" = sort_of three_numbers ∧
  ∃ st' result ps',
    sortBy Models.localeCompare (state_of three_numbers)
      [("z", 1%Q); ("b", 2%Q); ("a", 3%Q)] "p" ASC = Ok (st', result) ∧
    sorts st' !! "p" = Some ps' ∧
    result ≡ₚ [("z", 1%Q); ("b", 2%Q); ("a", 3%Q)] ∧
    ∃ l1, result = l1 ++ filter (fun a => indexed (docs ps') a = false)
                            [("z", 1%Q); ("b", 2%Q); ("a", 3%Q)] ∧
      l1 ≡ₚ filter (fun a => indexed (docs ps') a = true)
              [("z", 1%Q); ("b", 2%Q); ("a", 3%Q)] ∧
      (ASC = ASC -> Sorted (pos_le (docs ps')) l1) ∧
      (ASC = DESC -> Sorted (flip (pos_le (docs ps'))) l1).
Proof.
  split; [vm_compute; reflexivity|]. split; [vm_compute; reflexivity|].
  apply (sortBy_orders_by_position Models.localeCompare (state_of three_numbers)
    [("z", 1%Q); ("b", 2%Q); ("a", 3%Q)] "p" ASC
    (match sort_of three_numbers with Some ps => ps | None => emptyPropertySort ST_number end)).
  - vm_compute. reflexivity.
  - vm_compute. reflexivity.
Defined.

(** ** C2 *)

Lemma set_positions_notin d l i y :
  y ∉ map fst l -> set_positions d l i !! y = d !! y.
Proof.
  revert d i. induction l as [|x l IH]; intros d i Hy; simpl; [done|].
  simpl in Hy. apply not_elem_of_cons in Hy as [Hxy Hy].
  rewrite IH by done. by rewrite lookup_insert_ne.
Qed.

Lemma set_positions_at d l i k x :
  NoDup (map fst l) -> l !! k = Some x ->
  set_positions d l i !! x.1 = Some (i + Z.of_nat k).
Proof.
  revert d i k. induction l as [|y l IH]; intros d i k Hnd Hk; [done|].
  simpl in Hnd. apply NoDup_cons in Hnd as [Hy Hnd]. simpl.
  destruct k as [|k]; simpl in Hk.
  - injection Hk as ->. rewrite set_positions_notin by done.
    rewrite lookup_insert_eq. f_equal. lia.
  - rewrite (IH _ _ k) by done. f_equal. lia.
Qed.

Lemma NoDup_map_fst_perm (l l' : list (string * SortValue)) :
  l ≡ₚ l' -> NoDup (map fst l) -> NoDup (map fst l').
Proof.
  intros Hp Hnd. assert (Hm : map fst l ≡ₚ map fst l') by by apply Permutation_map.
  by rewrite <- Hm.
Qed.

Lemma deleteOrderedDocs_pending ps x :
  x ∈ orderedDocs (deleteOrderedDocs ps) -> orderedDocsToRemove ps !! x.1 = None.
Proof.
  unfold deleteOrderedDocs. case_decide as Hsz; simpl.
  - intros _. apply map_size_empty_iff in Hsz. rewrite Hsz. apply lookup_empty.
  - intros Hx. apply list_elem_of_filter in Hx. tauto.
Qed.

Lemma deleteOrderedDocs_NoDup ps :
  NoDup (map fst (orderedDocs ps)) -> NoDup (map fst (orderedDocs (deleteOrderedDocs ps))).
Proof.
  unfold deleteOrderedDocs. case_decide; simpl; [done|]. apply NoDup_map_fst_filter.
Qed.

Lemma deleteOrderedDocs_type ps : type (deleteOrderedDocs ps) = type ps.
Proof. unfold deleteOrderedDocs. by case_decide. Qed.

Lemma numerSort_order x y :
  (jlt0 (numerSort x y) = true -> num_le x y) ∧ (jlt0 (numerSort x y) = false -> num_le y x).
Proof.
  unfold numerSort, num_le. destruct x as [? [s|a|b]], y as [? [u|c|e]]; simpl; try done.
  split; intros H.
  - apply qltb_true in H. destruct a as [an ad], c as [cn cd].
    unfold Qlt, Qle, Qminus, Qplus, Qopp in *; simpl in *. nia.
  - apply qltb_false in H. destruct a as [an ad], c as [cn cd].
    unfold Qlt, Qle, Qminus, Qplus, Qopp in *; simpl in *. nia.
Qed.

Lemma stringSort_order lc lang x y :
  antisymmetric_compare (lc lang) ->
  (jlt0 (stringSort lc lang x y) = true -> str_le lc lang x y) ∧
  (jlt0 (stringSort lc lang x y) = false -> str_le lc lang y x).
Proof.
  intros Hanti. unfold stringSort, str_le.
  destruct x as [? [s|a|b]], y as [? [u|c|e]]; cbn [snd]; try done.
  rewrite jlt0_of_Z. split; intros H.
  - apply Z.ltb_lt in H. by apply Hanti.
  - apply Z.ltb_ge in H. done.
Qed.

(** The consistency a sort of the property establishes, given distinct
    ids. *)
Lemma ensure_sorted_consistent_core lc lang ps :
  NoDup (map fst (orderedDocs ps)) ->
  consistent_after_sort lc lang ps (ensurePropertyIsSorted lc lang (deleteOrderedDocs ps)).
Proof.
  intros Hnd. set (q := deleteOrderedDocs ps).
  assert (Hq : NoDup (map fst (orderedDocs q))) by by apply deleteOrderedDocs_NoDup.
  set (od := js_sort (predicate lc lang (type q)) (orderedDocs q)).
  assert (Hperm : od ≡ₚ orderedDocs q) by apply js_sort_perm.
  assert (Hod : NoDup (map fst od)) by (eapply NoDup_map_fst_perm; [symmetry; exact Hperm|done]).
  assert (Hpos : ∀ i x, od !! i = Some x ->
            set_positions (docs q) od 0 !! x.1 = Some (Z.of_nat i)).
  { intros i x Hi. by rewrite (set_positions_at _ _ _ i x). }
  unfold consistent_after_sort, ensurePropertyIsSorted; simpl. fold od.
  split; [|split; [|split; [|split; [|split]]]].
  - intros x Hx. apply deleteOrderedDocs_pending. fold q. by rewrite <- Hperm.
  - intros Ht. unfold od. rewrite Ht.
    apply (js_sort_sorted (fun _ => True)); [intros; apply numerSort_order|].
    apply Forall_true. done.
  - intros Ht Hanti. unfold od. rewrite Ht.
    apply (js_sort_sorted (fun _ => True)); [intros; by apply stringSort_order|].
    apply Forall_true. done.
  - intros Ht. unfold od. rewrite Ht.
    apply js_sort_boolean_falses_first.
  - done.
  - intros id i Hid. split.
    + intros Hi. apply list_elem_of_In, in_map_iff in Hid as [x [<- Hx]].
      apply list_elem_of_In, list_elem_of_lookup in Hx as [k Hk].
      pose proof (Hpos _ _ Hk) as Hk'. rewrite Hi in Hk'.
      injection Hk' as Hik. apply Nat2Z.inj in Hik. subst k.
      exists x.2. by destruct x.
    + intros [v Hv]. apply (Hpos _ _ Hv).
Qed.




End SorterProofs.

(** * Proofs: the index *)

Module IndexProofs.
Import Index IndexProps IndexFixtures.

Lemma foldM_ext {A B} (f g : A -> B -> res A) (l : list B) (a : A) :
  (∀ a x, f a x = g a x) -> foldM f l a = foldM g l a.
Proof.
  intros Hfg. revert a. induction l as [|x l IH]; intros a; simpl; [done|].
  rewrite Hfg. destruct (g a x); [apply IH|done].
Qed.

Lemma indexOf_absent (l : list Z) (x : Z) : x ∉ l -> indexOf l x = -1.
Proof.
  induction l as [|y l IH]; intros Hx; simpl; [done|].
  apply not_elem_of_cons in Hx as [Hxy Hx].
  destruct (Z.eqb_spec y x); [congruence|]. by rewrite IH.
Qed.

Lemma splice_last {B} (l : list B) : splice l (-1) 1 = removelast l.
Proof.
  unfold splice. replace (Z.ltb (-1) 0) with true by reflexivity. cbv iota.
  destruct l as [|y l]; [done|].
  replace (Z.to_nat (Z.max (Z.of_nat (length (y :: l)) + -1) 0)) with (length l)
    by (simpl length; lia).
  rewrite removelast_firstn_len. simpl pred.
  replace (length l + Z.to_nat 1)%nat with (length (y :: l)) by (simpl; lia).
  rewrite drop_all, app_nil_r. reflexivity.
Qed.

Lemma jdiv_by_zero_not_finite (x : jsnum) :
  is_finite (jdiv x (jsub (of_Z 1) (of_Z 1))) = false.
Proof. destruct x as [q| |b]; cbn; try reflexivity. by destruct (qeqb q 0). Qed.

Lemma head_take_1 {B} (l : list B) : head (take 1 l) = head l.
Proof. by destruct l. Qed.

Section Trees.
Context {RadixNode AVLNode : Type}.
Variable radixInsert : RadixNode -> string -> Z -> RadixNode.
Variable radixRemoveDocument : RadixNode -> string -> Z -> RadixNode.
Variable radixFind : RadixNode -> FindParams -> list (string * list Z).
Variable avlInsert : AVLNode -> Q -> list Z -> AVLNode.
Variable avlRemoveDocument : AVLNode -> Z -> Q -> AVLNode.
Variable avlFind : AVLNode -> Q -> option (list Z).
Variable avlGreaterThan : AVLNode -> Q -> bool -> list Z.
Variable avlLessThan : AVLNode -> Q -> bool -> list Z.
Variable avlRangeSearch : AVLNode -> Q -> Q -> list Z.
Variable getInternalDocumentId : string -> Z.
Variable intersect : list (list Z) -> list Z.

(** ** C10 *)


(** ** C9 *)

Lemma filter_ids_first_token tokenize lang (idx : Index RadixNode AVLNode) param op :
  filter_ids radixFind avlFind avlGreaterThan avlLessThan avlRangeSearch
    tokenize lang idx param op =
  filter_ids radixFind avlFind avlGreaterThan avlLessThan avlRangeSearch
    (fun raw l p => take 1 (tokenize raw l p)) lang idx param op.
Proof.
  unfold filter_ids.
  destruct op as [b|s|l|ops]; try reflexivity;
    destruct (indexes idx !! param) as [[r|a|b]|]; try reflexivity;
    do 2 f_equal; apply map_ext; intros raw; by rewrite head_take_1.
Qed.

(** Claim C9: in [searchByWhereClause] only the first token of each
    tokenized string filter value is looked up: the result is the same
    with a tokenizer that keeps the first token alone, for every index and
    where-clause. *)
Theorem where_clause_first_token_only tokenize lang
    (idx : Index RadixNode AVLNode) (filters : list (string * Filter)) :
  searchByWhereClause radixFind avlFind avlGreaterThan avlLessThan avlRangeSearch
    intersect tokenize lang idx filters =
  searchByWhereClause radixFind avlFind avlGreaterThan avlLessThan avlRangeSearch
    intersect (fun raw l p => take 1 (tokenize raw l p)) lang idx filters.
Proof.
  unfold searchByWhereClause. f_equal.
  apply foldM_ext. intros fm [param op]. by rewrite filter_ids_first_token.
Qed.

(** ** C4 *)

(** Claim C4 (amended): removing the score parameters of a document with
    [docsCount] 1 divides by [docsCount - 1 = 0]; [avgFieldLength[p]]
    becomes [NaN] or an infinity, never 0 (no reset exists). *)
Theorem remove_last_document_avg_not_finite (idx : Index RadixNode AVLNode)
    (p id : string) fl fr :
  fieldLengths idx !! p = Some fl ->
  frequencies idx !! p = Some fr ->
  ∃ idx', removeDocumentScoreParameters getInternalDocumentId idx p id 1 = Ok idx' ∧
    ∃ a, avgFieldLength idx' !! p = Some a ∧ is_finite a = false.
Proof.
  intros Hfl Hfr. unfold removeDocumentScoreParameters. rewrite Hfl. simpl.
  rewrite Hfr. eexists. split; [reflexivity|]. simpl.
  rewrite lookup_insert_eq. eexists. split; [reflexivity|].
  apply jdiv_by_zero_not_finite.
Qed.

(** ** C7 *)

(** Claim C7 (a source bug): removing from a boolean index an id that its
    bucket does not hold does not leave the bucket unchanged: [indexOf]
    returns -1 and [splice(-1, 1)] drops the bucket's last id. *)
Theorem remove_boolean_absent_drops_last
    (tokenize : string -> option string -> string -> list string)
    (idx : Index RadixNode AVLNode) (p id : string) (v : ScalarValue)
    (lang : option string) (dc : Z) (b : BooleanIndex) :
  indexes idx !! p = Some (Bool b) ->
  getInternalDocumentId id ∉ bucket b (truthy v) ->
  remove radixRemoveDocument avlRemoveDocument getInternalDocumentId idx p id
    (VScalar v) (Scalar T_boolean) lang tokenize dc =
  Ok (set_indexes idx
        (<[p := Bool (set_bucket b (truthy v) (removelast (bucket b (truthy v))))]>
           (indexes idx))).
Proof.
  intros Hb Habs. unfold remove, removeScalar. rewrite Hb.
  rewrite indexOf_absent by done. by rewrite splice_last.
Qed.

End Trees.


Lemma remove_last_document_avg_not_finite_witness :
  fieldLengths (idx_of one_doc) !! "t" = Some (fl_of one_doc "t") ∧
  frequencies (idx_of one_doc) !! "t" = Some (fr_of one_doc "t") ∧
  ∃ idx', Run.removeDocumentScoreParameters (idx_of one_doc) "t" "d1" 1 = Ok idx' ∧
    ∃ a, avgFieldLength idx' !! "t" = Some a ∧ is_finite a = false.
Proof.
  split; [vm_compute; reflexivity|]. split; [vm_compute; reflexivity|].
  apply (remove_last_document_avg_not_finite Models.getInternalDocumentId
           (idx_of one_doc) "t" "d1" (fl_of one_doc "t") (fr_of one_doc "t")).
  - vm_compute. reflexivity.
  - vm_compute. reflexivity.
Defined.

(** Counterexample to C4 as stated: "d1" with text "hello" is the only
    document of the string property "t"; removing its score parameters with
    [docsCount] 1 leaves [avgFieldLength["t"]] at [NaN] ([0 / 0]), not 0. *)
Lemma remove_last_document_avg_zero_counterexample :
  avgFieldLength (idx_of one_doc) !! "t" = Some (JNum 1) ∧
  match Run.removeDocumentScoreParameters (idx_of one_doc) "t" "d1" 1 with
  | Ok i => avgFieldLength i !! "t"
  | Throw _ => None
  end = Some JNaN.
Proof. split; vm_compute; reflexivity. Qed.

Lemma remove_boolean_absent_drops_last_witness :
  indexes (idx_of two_true) !! "b" = Some (Bool (bool_of two_true)) ∧
  bucket (bool_of two_true) true = [1; 2] ∧
  Run.remove (idx_of two_true) "b" "d3" (VScalar (VBoolean true)) (Scalar T_boolean)
    None Models.tokenize 2 =
  Ok (set_indexes (idx_of two_true)
        (<[ "b" := Bool (set_bucket (bool_of two_true) true [1]) ]>
           (indexes (idx_of two_true)))).
Proof.
  split; [vm_compute; reflexivity|]. split; [vm_compute; reflexivity|].
  apply (remove_boolean_absent_drops_last Models.radixRemoveDocument
           Models.avlRemoveDocument Models.getInternalDocumentId Models.tokenize
           (idx_of two_true) "b" "d3" (VBoolean true) None 2 (bool_of two_true)).
  - vm_compute. reflexivity.
  - refine (bool_decide_unpack _ _). vm_compute. reflexivity.
Defined.

End IndexProofs.

Module RoundTrip.
Import Index IndexProps.

Section Trees.
Context {RadixNode AVLNode : Type}.
Variable radixInsert : RadixNode -> string -> Z -> RadixNode.
Variable radixRemoveDocument : RadixNode -> string -> Z -> RadixNode.
Variable avlInsert : AVLNode -> Q -> list Z -> AVLNode.
Variable avlRemoveDocument : AVLNode -> Z -> Q -> AVLNode.
Variable getInternalDocumentId : string -> Z.
Variable tokenize : string -> option string -> string -> list string.

Implicit Types (idx base : Index RadixNode AVLNode).

Lemma insert_token_step base p id tokens t r fr f occ avg flp :
  (index ← insertTokenScoreParameters getInternalDocumentId
             (with_prop base p r (<[getInternalDocumentId id := Some f]> fr) occ avg flp)
             p id tokens t;
   match indexes index !! p with
   | Some (Radix r) =>
       Ok (set_indexes index
             (<[p := Radix (radixInsert r t (getInternalDocumentId id))]> (indexes index)))
   | _ => Throw "TypeError"
   end) =
  Ok (with_prop base p (radixInsert r t (getInternalDocumentId id))
        (<[getInternalDocumentId id := Some (<[t := tf_of tokens t]> f)]> fr)
        (occ_step_add occ t) avg flp).
Proof.
  unfold insertTokenScoreParameters, with_prop. simpl.
  rewrite !lookup_insert_eq. simpl. rewrite !lookup_insert_eq. simpl.
  f_equal. unfold set_indexes, set_tokenOccurrencies, set_frequencies. simpl.
  rewrite !insert_insert_eq. reflexivity.
Qed.

Lemma insert_tokens_fold base p id tokens ts r fr f occ avg flp :
  foldM (fun index token =>
           index ← insertTokenScoreParameters getInternalDocumentId index p id tokens token;
           match indexes index !! p with
           | Some (Radix r) =>
               Ok (set_indexes index
                     (<[p := Radix (radixInsert r token (getInternalDocumentId id))]>
                        (indexes index)))
           | _ => Throw "TypeError"
           end) ts
    (with_prop base p r (<[getInternalDocumentId id := Some f]> fr) occ avg flp) =
  Ok (with_prop base p (fold_left (fun r t => radixInsert r t (getInternalDocumentId id)) ts r)
        (<[getInternalDocumentId id := Some (freq_add tokens ts f)]> fr)
        (occ_add ts occ) avg flp).
Proof.
  revert r f occ. induction ts as [|t ts IH]; intros r f occ; [reflexivity|].
  cbn [foldM]. rewrite insert_token_step. cbn beta iota. apply IH.
Qed.

Lemma remove_token_step base p id t r frp occ avg flp :
  (index ← removeTokenScoreParameters (with_prop base p r frp occ avg flp) p t;
   match indexes index !! p with
   | Some (Radix r) =>
       Ok (set_indexes index
             (<[p := Radix (radixRemoveDocument r t (getInternalDocumentId id))]>
                (indexes index)))
   | _ => Throw "TypeError"
   end) =
  Ok (with_prop base p (radixRemoveDocument r t (getInternalDocumentId id)) frp
        (occ_step_sub occ t) avg flp).
Proof.
  unfold removeTokenScoreParameters, with_prop. simpl.
  rewrite !lookup_insert_eq. simpl. rewrite !lookup_insert_eq. simpl.
  f_equal. unfold set_indexes, set_tokenOccurrencies. simpl.
  rewrite !insert_insert_eq. reflexivity.
Qed.

Lemma remove_tokens_fold base p id ts r frp occ avg flp :
  foldM (fun index token =>
           index ← removeTokenScoreParameters index p token;
           match indexes index !! p with
           | Some (Radix r) =>
               Ok (set_indexes index
                     (<[p := Radix (radixRemoveDocument r token (getInternalDocumentId id))]>
                        (indexes index)))
           | _ => Throw "TypeError"
           end) ts (with_prop base p r frp occ avg flp) =
  Ok (with_prop base p
        (fold_left (fun r t => radixRemoveDocument r t (getInternalDocumentId id)) ts r)
        frp (occ_sub ts occ) avg flp).
Proof.
  revert r occ. induction ts as [|t ts IH]; intros r occ; [reflexivity|].
  cbn [foldM]. rewrite remove_token_step. cbn beta iota. apply IH.
Qed.

Lemma with_prop_id idx p r frp occ avg flp :
  indexes idx !! p = Some (Radix r) -> frequencies idx !! p = Some frp ->
  tokenOccurrencies idx !! p = Some occ -> avgFieldLength idx !! p = Some avg ->
  fieldLengths idx !! p = Some flp ->
  with_prop idx p r frp occ avg flp = idx.
Proof.
  intros. destruct idx. unfold with_prop. simpl in *. by rewrite !insert_id.
Qed.

Lemma with_prop_twice idx p r frp occ avg flp r' frp' occ' avg' flp' :
  with_prop (with_prop idx p r frp occ avg flp) p r' frp' occ' avg' flp' =
  with_prop idx p r' frp' occ' avg' flp'.
Proof. unfold with_prop. simpl. by rewrite !insert_insert_eq. Qed.

Lemma with_prop_lookups idx p r frp occ avg flp :
  let w := with_prop idx p r frp occ avg flp in
  indexes w !! p = Some (Radix r) ∧ frequencies w !! p = Some frp ∧
  tokenOccurrencies w !! p = Some occ ∧ avgFieldLength w !! p = Some avg ∧
  fieldLengths w !! p = Some flp.
Proof. unfold with_prop. simpl. by rewrite !lookup_insert_eq. Qed.

Lemma insert_string_eq idx p id s lang dc fl fr occ r :
  fieldLengths idx !! p = Some fl -> frequencies idx !! p = Some fr ->
  tokenOccurrencies idx !! p = Some occ -> indexes idx !! p = Some (Radix r) ->
  let tokens := tokenize s lang p in
  let i := getInternalDocumentId id in
  insert radixInsert avlInsert getInternalDocumentId idx p id (VScalar (VString s))
    (Scalar T_string) lang tokenize dc =
  Ok (with_prop idx p (fold_left (fun r t => radixInsert r t i) tokens r)
        (<[i := Some (freq_add tokens tokens ∅)]> fr) (occ_add tokens occ)
        (jdiv (jadd (jmul (nullish (avgFieldLength idx !! p) (JNum 0))
                          (jsub (of_Z dc) (of_Z 1)))
                    (of_nat (length tokens)))
              (of_Z dc))
        (<[i := Some (of_nat (length tokens))]> fl)).
Proof.
  intros Hfl Hfr Hocc Hr tokens i.
  assert (Hdoc : insertDocumentScoreParameters getInternalDocumentId idx p id tokens dc =
    Ok (with_prop idx p r (<[i := Some ∅]> fr) occ
          (jdiv (jadd (jmul (nullish (avgFieldLength idx !! p) (JNum 0))
                            (jsub (of_Z dc) (of_Z 1)))
                      (of_nat (length tokens)))
                (of_Z dc))
          (<[i := Some (of_nat (length tokens))]> fl))).
  { unfold insertDocumentScoreParameters. simpl. rewrite Hfl, Hfr. f_equal.
    destruct idx. unfold with_prop. simpl in *. by rewrite (insert_id indexes0), (insert_id tokenOccurrencies0). }
  unfold insert, insertScalar. cbv zeta beta iota. fold tokens i.
  rewrite Hdoc. cbv beta iota delta [mbind res_bind].
  exact (insert_tokens_fold idx p id tokens tokens r fr ∅ occ _ _).
Qed.

Lemma remove_string_eq idx p id s lang dc fl fr occ r :
  fieldLengths idx !! p = Some fl -> frequencies idx !! p = Some fr ->
  tokenOccurrencies idx !! p = Some occ -> indexes idx !! p = Some (Radix r) ->
  let tokens := tokenize s lang p in
  let i := getInternalDocumentId id in
  remove radixRemoveDocument avlRemoveDocument getInternalDocumentId idx p id
    (VScalar (VString s)) (Scalar T_string) lang tokenize dc =
  Ok (with_prop idx p (fold_left (fun r t => radixRemoveDocument r t i) tokens r)
        (<[i := None]> fr) (occ_sub tokens occ)
        (jdiv (jsub (jmul (num_or_nan (avgFieldLength idx !! p)) (of_Z dc))
                    (num_or_nan (mjoin (fl !! i))))
              (jsub (of_Z dc) (of_Z 1)))
        (<[i := None]> fl)).
Proof.
  intros Hfl Hfr Hocc Hr tokens i.
  assert (Hdoc : removeDocumentScoreParameters getInternalDocumentId idx p id dc =
    Ok (with_prop idx p r (<[i := None]> fr) occ
          (jdiv (jsub (jmul (num_or_nan (avgFieldLength idx !! p)) (of_Z dc))
                      (num_or_nan (mjoin (fl !! i))))
                (jsub (of_Z dc) (of_Z 1)))
          (<[i := None]> fl))).
  { unfold removeDocumentScoreParameters. rewrite Hfl. simpl. rewrite Hfr. f_equal.
    destruct idx. unfold with_prop. simpl in *.
    by rewrite (insert_id indexes0), (insert_id tokenOccurrencies0). }
  unfold remove, removeScalar. cbv zeta beta iota. fold tokens i.
  rewrite Hdoc. cbv beta iota delta [mbind res_bind].
  exact (remove_tokens_fold idx p id tokens r _ occ _ _).
Qed.

End Trees.

(** ** Token counts *)


Lemma occ_step_add_lookup occ x t :
  occ_step_add occ x !! t =
    if decide (x = t) then Some (jadd (nullish (occ !! t) (JNum 0)) (of_Z 1)) else occ !! t.
Proof.
  unfold occ_step_add. cbv zeta. destruct (decide (x = t)) as [<-|Hxt].
  - rewrite lookup_insert_eq. destruct (decide (x ∈ dom occ)) as [Hin|Hin]; [done|].
    apply not_elem_of_dom in Hin. by rewrite lookup_insert_eq, Hin.
  - rewrite lookup_insert_ne by done. destruct (decide (x ∈ dom occ)); [done|].
    by rewrite lookup_insert_ne.
Qed.

Lemma cnt_cons (x t : string) ts :
  count_occ (fun a b : string => decide (a = b)) (x :: ts) t =
    ((if decide (x = t) then 1 else 0) + count_occ (fun a b : string => decide (a = b)) ts t)%nat.
Proof. simpl. by destruct (decide (x = t)). Qed.

Lemma cnt_not_in (t : string) ts :
  t ∉ ts -> count_occ (fun a b : string => decide (a = b)) ts t = 0%nat.
Proof. intros Hin. apply count_occ_not_In. by rewrite <- list_elem_of_In. Qed.

Lemma occ_add_lookup ts occ t :
  occ_add ts occ !! t =
    if decide (t ∈ ts) then Some (Nat.iter (count_occ (fun a b : string => decide (a = b)) ts t) (fun v => jadd v (of_Z 1)) (nullish (occ !! t) (JNum 0)))
    else occ !! t.
Proof.
  revert occ. induction ts as [|x ts IH]; intros occ; [done|].
  unfold occ_add. simpl fold_left. fold (occ_add ts (occ_step_add occ x)).
  rewrite IH, occ_step_add_lookup, cnt_cons. destruct (decide (x = t)) as [<-|Hxt].
  - destruct (decide (x ∈ x :: ts)) as [_|Hn]; [|set_solver].
    rewrite Nat.add_1_l. destruct (decide (x ∈ ts)) as [Hin|Hin]; simpl nullish.
    + by rewrite Nat.iter_succ_r.
    + by rewrite cnt_not_in.
  - rewrite Nat.add_0_l.
    destruct (decide (t ∈ ts)), (decide (t ∈ x :: ts)); try set_solver; done.
Qed.

Lemma occ_sub_lookup ts occ t :
  occ_sub ts occ !! t =
    if decide (t ∈ ts) then Some (Nat.iter (count_occ (fun a b : string => decide (a = b)) ts t) (fun v => jsub v (of_Z 1)) (num_or_nan (occ !! t)))
    else occ !! t.
Proof.
  revert occ. induction ts as [|x ts IH]; intros occ; [done|].
  unfold occ_sub. simpl fold_left. fold (occ_sub ts (occ_step_sub occ x)).
  rewrite IH, cnt_cons. unfold occ_step_sub. destruct (decide (x = t)) as [<-|Hxt].
  - destruct (decide (x ∈ x :: ts)) as [_|Hn]; [|set_solver].
    rewrite Nat.add_1_l, lookup_insert_eq.
    destruct (decide (x ∈ ts)) as [Hin|Hin]; simpl num_or_nan.
    + by rewrite Nat.iter_succ_r.
    + by rewrite cnt_not_in.
  - rewrite Nat.add_0_l, lookup_insert_ne by done.
    destruct (decide (t ∈ ts)), (decide (t ∈ x :: ts)); try set_solver; done.
Qed.

Lemma iter_incr_num c q :
  ∃ q', Nat.iter c (fun v => jadd v (of_Z 1)) (JNum q) = JNum q' ∧ q' == q + inject_Z (Z.of_nat c).
Proof.
  induction c as [|c IH]; simpl.
  - eexists. split; [reflexivity|]. unfold Qeq; simpl; lia.
  - destruct IH as [q' [-> Hq]]. eexists. split; [reflexivity|].
    rewrite Hq. unfold Qeq, Qplus, inject_Z; simpl. lia.
Qed.

Lemma iter_decr_num c q :
  ∃ q', Nat.iter c (fun v => jsub v (of_Z 1)) (JNum q) = JNum q' ∧ q' == q - inject_Z (Z.of_nat c).
Proof.
  induction c as [|c IH]; simpl.
  - eexists. split; [reflexivity|]. unfold Qeq; simpl; lia.
  - destruct IH as [q' [-> Hq]]. eexists. split; [reflexivity|].
    rewrite Hq. unfold Qeq, Qminus, Qplus, Qopp, inject_Z; simpl. lia.
Qed.

Lemma iter_decr_incr c v : jeq (Nat.iter c (fun v => jsub v (of_Z 1)) (Nat.iter c (fun v => jadd v (of_Z 1)) v)) v.
Proof.
  destruct v as [q| |b].
  - destruct (iter_incr_num c q) as [q1 [-> H1]].
    destruct (iter_decr_num c q1) as [q2 [-> H2]]. simpl.
    rewrite H2, H1. ring.
  - assert (Hi : ∀ n, Nat.iter n (fun v => jadd v (of_Z 1)) JNaN = JNaN) by (intros n; induction n as [|n IH]; simpl; [done|by rewrite IH]).
    assert (Hd : ∀ n, Nat.iter n (fun v => jsub v (of_Z 1)) JNaN = JNaN) by (intros n; induction n as [|n IH]; simpl; [done|by rewrite IH]).
    by rewrite Hi, Hd.
  - assert (Hi : ∀ n, Nat.iter n (fun v => jadd v (of_Z 1)) (JInf b) = JInf b) by (intros n; induction n as [|n IH]; simpl; [done|by rewrite IH]).
    assert (Hd : ∀ n, Nat.iter n (fun v => jsub v (of_Z 1)) (JInf b) = JInf b).
    { intros n; induction n as [|n IH]; simpl; [done|rewrite IH; by destruct b]. }
    by rewrite Hi, Hd.
Qed.

Lemma occ_roundtrip occ tokens :
  occ_restored occ (occ_sub tokens (occ_add tokens occ)) tokens.
Proof.
  intros t. rewrite occ_sub_lookup, occ_add_lookup.
  destruct (occ !! t) as [v|] eqn:Ev; case_decide as Hin; simpl.
  - eexists. split; [reflexivity|]. apply iter_decr_incr.
  - eexists. split; [done|]. destruct v as [q| |b]; simpl; [reflexivity|done|done].
  - left. split; [done|]. eexists. split; [reflexivity|]. apply iter_decr_incr.
  - by right.
Qed.

(** ** Average field length *)

Lemma qeqb_false (q : Q) : ~ q == 0 -> qeqb q 0 = false.
Proof.
  intros Hq. unfold qeqb. destruct (Qeq_bool q 0) eqn:E; [|done].
  apply Qeq_bool_iff in E. contradiction.
Qed.

Lemma avg_roundtrip (a : Q) (dc : Z) (n : nat) :
  2 <= dc ->
  ∃ a2, jdiv (jsub (jmul (jdiv (jadd (jmul (JNum a) (jsub (of_Z dc) (of_Z 1))) (of_nat n))
                               (of_Z dc))
                         (of_Z dc))
                   (of_nat n))
             (jsub (of_Z dc) (of_Z 1)) = JNum a2 ∧ a2 == a.
Proof.
  intros Hdc.
  assert (H1 : ~ inject_Z dc == 0) by (unfold Qeq; simpl; lia).
  assert (H2 : ~ inject_Z dc + - inject_Z 1 == 0)
    by (unfold Qeq, Qplus, Qopp, inject_Z; simpl; lia).
  cbv beta iota delta [of_Z of_nat jsub jneg jmul jadd jdiv].
  rewrite (qeqb_false _ H1). cbv beta iota.
  rewrite (qeqb_false _ H2). eexists. split; [reflexivity|].
  field. split; assumption.
Qed.

(** ** Boolean buckets *)

Lemma indexOf_app_absent (l : list Z) (x : Z) :
  x ∉ l -> indexOf (l ++ [x]) x = Z.of_nat (length l).
Proof.
  induction l as [|y l IH]; intros Hx; simpl.
  - by rewrite Z.eqb_refl.
  - apply not_elem_of_cons in Hx as [Hxy Hx].
    destruct (Z.eqb_spec y x) as [->|_]; [done|].
    rewrite IH by done. destruct (Z.eqb_spec (Z.of_nat (length l)) (-1)); lia.
Qed.

Lemma splice_app_last {B} (l : list B) (x : B) :
  splice (l ++ [x]) (Z.of_nat (length l)) 1 = l.
Proof.
  unfold splice. rewrite length_app. simpl length.
  replace (Z.of_nat (length l) <? 0) with false by (symmetry; apply Z.ltb_ge; lia).
  replace (Z.min (Z.of_nat (length l)) (Z.of_nat (length l + 1)))
    with (Z.of_nat (length l)) by lia.
  rewrite Nat2Z.id, take_app_length, drop_ge by (rewrite length_app; simpl; lia).
  by rewrite app_nil_r.
Qed.

Lemma set_bucket_twice b key l l' :
  set_bucket (set_bucket b key l) key l' = set_bucket b key l'.
Proof. by destruct key. Qed.

Lemma bucket_set b key l : bucket (set_bucket b key l) key = l.
Proof. by destruct key. Qed.

Lemma set_bucket_id b key : set_bucket b key (bucket b key) = b.
Proof. by destruct b, key. Qed.

Section Restore.
Context {RadixNode AVLNode : Type}.
Variable radixInsert : RadixNode -> string -> Z -> RadixNode.
Variable radixRemoveDocument : RadixNode -> string -> Z -> RadixNode.
Variable avlInsert : AVLNode -> Q -> list Z -> AVLNode.
Variable avlRemoveDocument : AVLNode -> Z -> Q -> AVLNode.
Variable getInternalDocumentId : string -> Z.
Variable tokenize : string -> option string -> string -> list string.

Implicit Types (idx : Index RadixNode AVLNode).


End Restore.



End RoundTrip.

(** ** Document frequencies *)

Module Occurrences.
Import Index IndexProps RoundTrip.

Lemma docs_insert fr i x t :
  docs_with_token (<[i:=x]> fr) t =
    ((if tf_positive x t then 1 else 0) + docs_with_token (delete i fr) t)%nat.
Proof.
  unfold docs_with_token. rewrite <- insert_delete_eq, map_filter_insert. simpl.
  case_decide as Hx.
  - rewrite Hx, map_size_insert_None; [done|].
    apply map_lookup_filter_None_2. left. apply lookup_delete_eq.
  - destruct (tf_positive x t); [done|].
    by rewrite (delete_id (delete i fr)) by apply lookup_delete_eq.
Qed.

Lemma docs_split fr i t :
  docs_with_token fr t =
    ((match fr !! i with Some x => if tf_positive x t then 1 else 0 | None => 0 end)
     + docs_with_token (delete i fr) t)%nat.
Proof.
  destruct (fr !! i) as [x|] eqn:E.
  - rewrite <- (insert_delete_id fr i x E) at 1. rewrite docs_insert.
    by rewrite (delete_id (delete i fr)) by apply lookup_delete_eq.
  - by rewrite delete_id.
Qed.

Lemma docs_insert_nonpos fr i x t :
  tf_positive x t = false ->
  match fr !! i with Some y => tf_positive y t = false | None => True end ->
  docs_with_token (<[i:=x]> fr) t = docs_with_token fr t.
Proof.
  intros Hx Hy. rewrite docs_insert, (docs_split fr i), Hx.
  destruct (fr !! i); [by rewrite Hy|done].
Qed.

Lemma docs_empty t : docs_with_token ∅ t = 0%nat.
Proof. unfold docs_with_token. by rewrite map_filter_empty, map_size_empty. Qed.

Lemma tf_positive_Some f t :
  tf_positive (Some f) t = match f !! t with Some x => jgt0 x | None => false end.
Proof. reflexivity. Qed.

Lemma tf_positive_empty t : tf_positive (Some ∅) t = false.
Proof. by rewrite tf_positive_Some, lookup_empty. Qed.

Lemma freq_add_lookup tokens ts f t :
  freq_add tokens ts f !! t = if decide (t ∈ ts) then Some (tf_of tokens t) else f !! t.
Proof.
  revert f. induction ts as [|x ts IH]; intros f; [done|].
  unfold freq_add. simpl fold_left. fold (freq_add tokens ts (<[x := tf_of tokens x]> f)).
  rewrite IH. destruct (decide (x = t)) as [<-|Hxt].
  - rewrite lookup_insert_eq. destruct (decide (x ∈ ts)), (decide (x ∈ x :: ts)); set_solver.
  - rewrite lookup_insert_ne by done.
    destruct (decide (t ∈ ts)), (decide (t ∈ x :: ts)); set_solver.
Qed.

Lemma tf_of_pos tokens t : t ∈ tokens -> jgt0 (tf_of tokens t) = true.
Proof.
  intros Hin.
  assert (Hc : (0 < count_occ (fun a b : string => decide (a = b)) tokens t)%nat).
  { apply count_occ_In. by apply list_elem_of_In. }
  assert (Hl : (0 < length tokens)%nat) by (destruct tokens; [set_solver|simpl; lia]).
  unfold tf_of, of_nat, of_Z, jdiv.
  rewrite qeqb_false by (unfold Qeq; simpl; lia).
  simpl jgt0. apply SortFacts.qltb_true.
  apply Qlt_shift_div_l; unfold Qlt; simpl; lia.
Qed.

Lemma cnt_nodup (ts : list string) t :
  NoDup ts -> t ∈ ts -> count_occ (fun a b : string => decide (a = b)) ts t = 1%nat.
Proof.
  induction ts as [|x ts IH]; intros Hnd Hin; [set_solver|].
  apply NoDup_cons in Hnd as [Hx Hnd]. rewrite cnt_cons.
  destruct (decide (x = t)) as [<-|Hxt].
  - by rewrite cnt_not_in.
  - rewrite Nat.add_0_l. apply IH; [done|]. set_solver.
Qed.

Lemma jeq_succ v d :
  jeq v (of_nat d) -> jeq (Nat.iter 1 (fun v => jadd v (of_Z 1)) v) (of_nat (1 + d)).
Proof.
  destruct v as [q| |]; simpl; try done. intros H. rewrite H.
  unfold Qeq, Qplus, inject_Z; simpl. lia.
Qed.

Lemma jeq_pred o d :
  jeq (nullish o (JNum 0)) (of_nat (1 + d)) ->
  jeq (Nat.iter 1 (fun v => jsub v (of_Z 1)) (num_or_nan o)) (of_nat d).
Proof.
  destruct o as [[q| |]|]; simpl; try done.
  - intros H. rewrite H. unfold Qeq, Qplus, Qopp, inject_Z; simpl. lia.
Qed.

Lemma insert_part fr i occ tokens :
  NoDup tokens ->
  (∀ t, match fr !! i with Some x => tf_positive x t = false | None => True end) ->
  (∀ t, jeq (nullish (occ !! t) (JNum 0)) (of_nat (docs_with_token fr t))) ->
  ∀ t, jeq (nullish (occ_add tokens occ !! t) (JNum 0))
         (of_nat (docs_with_token (<[i := Some (freq_add tokens tokens ∅)]> fr) t)).
Proof.
  intros Hnd Hni Hc t. specialize (Hc t). specialize (Hni t).
  rewrite (docs_split fr i) in Hc. rewrite docs_insert, occ_add_lookup.
  rewrite tf_positive_Some, freq_add_lookup.
  assert (Hz : (match fr !! i with Some x => if tf_positive x t then 1 else 0 | None => 0 end)%nat = 0%nat)
    by (destruct (fr !! i); [by rewrite Hni|done]).
  rewrite Hz, Nat.add_0_l in Hc.
  destruct (decide (t ∈ tokens)) as [Hin|Hin].
  - rewrite tf_of_pos, cnt_nodup by done. by apply jeq_succ.
  - by rewrite lookup_empty, Nat.add_0_l.
Qed.

Lemma remove_part fr i f occ tokens :
  NoDup tokens -> fr !! i = Some (Some f) ->
  (∀ t, tf_positive (Some f) t = true <-> t ∈ tokens) ->
  (∀ t, jeq (nullish (occ !! t) (JNum 0)) (of_nat (docs_with_token fr t))) ->
  ∀ t, jeq (nullish (occ_sub tokens occ !! t) (JNum 0))
         (of_nat (docs_with_token (<[i := None]> fr) t)).
Proof.
  intros Hnd Hf Hpos Hc t. specialize (Hc t).
  rewrite (docs_split fr i), Hf in Hc. rewrite docs_insert, occ_sub_lookup.
  change (tf_positive None t) with false. rewrite Nat.add_0_l.
  destruct (decide (t ∈ tokens)) as [Hin|Hin].
  - rewrite cnt_nodup by done. apply Hpos in Hin. rewrite Hin in Hc. by apply jeq_pred.
  - assert (Hn : tf_positive (Some f) t = false)
      by (destruct (tf_positive (Some f) t) eqn:E; [apply Hpos in E; contradiction|done]).
    by rewrite Hn, Nat.add_0_l in Hc.
Qed.

Section Steps.
Context {RadixNode AVLNode : Type}.
Variable radixCreate : RadixNode.
Variable avlCreate : Q -> list Z -> AVLNode.
Variable radixInsert : RadixNode -> string -> Z -> RadixNode.
Variable radixRemoveDocument : RadixNode -> string -> Z -> RadixNode.
Variable avlInsert : AVLNode -> Q -> list Z -> AVLNode.
Variable avlRemoveDocument : AVLNode -> Z -> Q -> AVLNode.
Variable getInternalDocumentId : string -> Z.
Variable tokenize : string -> option string -> string -> list string.

Implicit Types (idx : Index RadixNode AVLNode).

Lemma consistent_update idx idx' p :
  occurrences_consistent idx ->
  (∀ q, q ≠ p -> frequencies idx' !! q = frequencies idx !! q) ->
  (∀ q, q ≠ p -> tokenOccurrencies idx' !! q = tokenOccurrencies idx !! q) ->
  (∀ fr occ, frequencies idx' !! p = Some fr -> tokenOccurrencies idx' !! p = Some occ ->
     ∀ t, jeq (nullish (occ !! t) (JNum 0)) (of_nat (docs_with_token fr t))) ->
  occurrences_consistent idx'.
Proof.
  intros Hc Hf Ho Hp q fr occ Hq1 Hq2. destruct (decide (q = p)) as [->|Hne].
  - by eapply Hp.
  - rewrite Hf in Hq1 by done. rewrite Ho in Hq2 by done. by eapply Hc.
Qed.

Lemma consistent_same idx idx' :
  frequencies idx' = frequencies idx -> tokenOccurrencies idx' = tokenOccurrencies idx ->
  occurrences_consistent idx -> occurrences_consistent idx'.
Proof. intros Hf Ho Hc p fr occ. rewrite Hf, Ho. apply Hc. Qed.

Lemma insert_string_cases idx idx' p id s lang dc :
  insert radixInsert avlInsert getInternalDocumentId idx p id (VScalar (VString s))
    (Scalar T_string) lang tokenize dc = Ok idx' ->
  ∃ fl fr, fieldLengths idx !! p = Some fl ∧ frequencies idx !! p = Some fr ∧
    ((∃ occ r, tokenOccurrencies idx !! p = Some occ ∧ indexes idx !! p = Some (Radix r)) ∨
     (tokenize s lang p = [] ∧
      frequencies idx' = <[p := <[getInternalDocumentId id := Some ∅]> fr]> (frequencies idx) ∧
      tokenOccurrencies idx' = tokenOccurrencies idx)).
Proof.
  intros H.
  unfold insert, insertScalar, insertDocumentScoreParameters in H. cbv zeta beta iota in H.
  cbn [fieldLengths frequencies set_avgFieldLength set_fieldLengths] in H.
  destruct (fieldLengths idx !! p) as [fl|]; [|discriminate].
  destruct (frequencies idx !! p) as [fr|] eqn:Efr; [|discriminate].
  exists fl, fr. split; [done|]. split; [done|].
  cbv beta iota delta [mbind res_bind] in H.
  destruct (tokenOccurrencies idx !! p) as [occ|] eqn:Eo;
    [destruct (indexes idx !! p) as [[r| |]|] eqn:Er; [by left; eauto| | |]|].
  all: right; destruct (tokenize s lang p) as [|t ts]; [injection H as <-; done|].
  all: exfalso; cbn [foldM] in H; unfold insertTokenScoreParameters in H.
  all: cbn [frequencies set_frequencies set_fieldLengths set_avgFieldLength] in H.
  all: rewrite !lookup_insert_eq in H.
  all: simpl in H; rewrite ?Eo in H; simpl in H; rewrite ?Er in H; simpl in H; discriminate.
Qed.

Lemma remove_string_cases idx idx' p id s lang dc :
  remove radixRemoveDocument avlRemoveDocument getInternalDocumentId idx p id
    (VScalar (VString s)) (Scalar T_string) lang tokenize dc = Ok idx' ->
  ∃ fl fr, fieldLengths idx !! p = Some fl ∧ frequencies idx !! p = Some fr ∧
    ((∃ occ r, tokenOccurrencies idx !! p = Some occ ∧ indexes idx !! p = Some (Radix r)) ∨
     (tokenize s lang p = [] ∧
      frequencies idx' = <[p := <[getInternalDocumentId id := None]> fr]> (frequencies idx) ∧
      tokenOccurrencies idx' = tokenOccurrencies idx)).
Proof.
  intros H.
  unfold remove, removeScalar, removeDocumentScoreParameters in H. cbv zeta beta iota in H.
  destruct (fieldLengths idx !! p) as [fl|]; [|discriminate].
  cbn [fieldLengths frequencies set_avgFieldLength set_fieldLengths] in H.
  destruct (frequencies idx !! p) as [fr|] eqn:Efr; [|discriminate].
  exists fl, fr. split; [done|]. split; [done|].
  cbv beta iota delta [mbind res_bind] in H.
  destruct (tokenOccurrencies idx !! p) as [occ|] eqn:Eo;
    [destruct (indexes idx !! p) as [[r| |]|] eqn:Er; [by left; eauto| | |]|].
  all: right; destruct (tokenize s lang p) as [|t ts]; [injection H as <-; done|].
  all: exfalso; cbn [foldM] in H; unfold removeTokenScoreParameters in H.
  all: simpl in H; rewrite ?Eo in H; simpl in H; rewrite ?Er in H; simpl in H; discriminate.
Qed.

Lemma insert_other_same idx idx' p id v t lang dc :
  t ≠ T_string ->
  insert radixInsert avlInsert getInternalDocumentId idx p id (VScalar v) (Scalar t)
    lang tokenize dc = Ok idx' ->
  frequencies idx' = frequencies idx ∧ tokenOccurrencies idx' = tokenOccurrencies idx.
Proof.
  intros Ht H. unfold insert, insertScalar in H.
  destruct t; [done| |]; repeat case_match; simplify_eq; done.
Qed.

Lemma remove_other_same idx idx' p id v t lang dc :
  t ≠ T_string ->
  remove radixRemoveDocument avlRemoveDocument getInternalDocumentId idx p id (VScalar v)
    (Scalar t) lang tokenize dc = Ok idx' ->
  frequencies idx' = frequencies idx ∧ tokenOccurrencies idx' = tokenOccurrencies idx.
Proof.
  intros Ht H. unfold remove, removeScalar in H.
  destruct t; [done| |]; repeat case_match; simplify_eq; done.
Qed.

Lemma with_prop_frequencies_ne idx p r frp occ avg flp q :
  q ≠ p -> frequencies (with_prop idx p r frp occ avg flp) !! q = frequencies idx !! q.
Proof. intros Hq. unfold with_prop. simpl. by rewrite lookup_insert_ne. Qed.

Lemma with_prop_occ_ne idx p r frp occ avg flp q :
  q ≠ p -> tokenOccurrencies (with_prop idx p r frp occ avg flp) !! q =
           tokenOccurrencies idx !! q.
Proof. intros Hq. unfold with_prop. simpl. by rewrite lookup_insert_ne. Qed.

Lemma step_consistent idx idx' :
  scalar_step radixInsert radixRemoveDocument avlInsert avlRemoveDocument
    getInternalDocumentId tokenize idx idx' ->
  occurrences_consistent idx -> occurrences_consistent idx'.
Proof.
  intros Hs Hc. destruct Hs as [idx idx' p id s lang dc Hnd Hni H
                               |idx idx' p id s lang dc fr0 f Hnd Hfr0 Hf Hpos H
                               |idx idx' p id v t lang dc Ht H
                               |idx idx' p id v t lang dc Ht H].
  - pose proof H as H'. apply insert_string_cases in H'
      as (fl & fr & Hfl & Hfr & [(occ & r & Hocc & Hr)|(Htok & Hf' & Ho')]).
    + rewrite (insert_string_eq radixInsert avlInsert getInternalDocumentId tokenize
                 idx p id s lang dc fl fr occ r Hfl Hfr Hocc Hr) in H.
      injection H as <-. apply (consistent_update idx _ p Hc).
      * intros q Hq. by apply with_prop_frequencies_ne.
      * intros q Hq. by apply with_prop_occ_ne.
      * unfold with_prop. simpl. rewrite !lookup_insert_eq.
        intros fr' occ' [= <-] [= <-].
        apply insert_part; [done| |by apply (Hc p)].
        intros t. unfold not_indexed in Hni. rewrite Hfr in Hni.
        destruct (fr !! getInternalDocumentId id) as [[x|]|]; done.
    + apply (consistent_update idx _ p Hc).
      * intros q Hq. by rewrite Hf', lookup_insert_ne.
      * intros q Hq. by rewrite Ho'.
      * intros fr' occ' Hfr' Hocc'. rewrite Hf', lookup_insert_eq in Hfr'.
        injection Hfr' as <-. rewrite Ho' in Hocc'. intros t.
        rewrite docs_insert_nonpos; [by apply (Hc p)|apply tf_positive_empty|].
        unfold not_indexed in Hni. rewrite Hfr in Hni.
        destruct (fr !! getInternalDocumentId id) as [[x|]|]; done.
  - pose proof H as H'. apply remove_string_cases in H'
      as (fl & fr & Hfl & Hfr & [(occ & r & Hocc & Hr)|(Htok & Hf' & Ho')]).
    + rewrite Hfr in Hfr0. injection Hfr0 as <-.
      rewrite (remove_string_eq radixRemoveDocument avlRemoveDocument getInternalDocumentId
                 tokenize idx p id s lang dc fl fr occ r Hfl Hfr Hocc Hr) in H.
      injection H as <-. apply (consistent_update idx _ p Hc).
      * intros q Hq. by apply with_prop_frequencies_ne.
      * intros q Hq. by apply with_prop_occ_ne.
      * unfold with_prop. simpl. rewrite !lookup_insert_eq.
        intros fr' occ' [= <-] [= <-].
        eapply remove_part; [done|exact Hf|exact Hpos|by apply (Hc p)].
    + rewrite Hfr in Hfr0. injection Hfr0 as <-.
      apply (consistent_update idx _ p Hc).
      * intros q Hq. by rewrite Hf', lookup_insert_ne.
      * intros q Hq. by rewrite Ho'.
      * intros fr' occ' Hfr' Hocc'. rewrite Hf', lookup_insert_eq in Hfr'.
        injection Hfr' as <-. rewrite Ho' in Hocc'. intros t.
        rewrite docs_insert_nonpos; [by apply (Hc p)|done|].
        rewrite Hf. destruct (tf_positive (Some f) t) eqn:E; [|done].
        apply Hpos in E. rewrite Htok in E. set_solver.
  - destruct (insert_other_same idx idx' p id v t lang dc Ht H) as [Hf Ho].
    by apply (consistent_same idx).
  - destruct (remove_other_same idx idx' p id v t lang dc Ht H) as [Hf Ho].
    by apply (consistent_same idx).
Qed.

Lemma create_consistent schema idx idx' :
  occurrences_consistent idx ->
  create_flat radixCreate avlCreate schema idx = Ok idx' ->
  occurrences_consistent idx'.
Proof.
  revert idx. induction schema as [|[path ty] rest IH]; intros idx Hc H; simpl in H.
  - by injection H as <-.
  - repeat match type of H with
           | context [if String.eqb ?a ?b then _ else _] => destruct (String.eqb a b)
           end; try discriminate; (eapply IH; [|exact H]).
    all: try (apply (consistent_same idx); [done|done|exact Hc]).
    all: apply (consistent_update idx _ path Hc);
      [intros q Hq; simpl; by rewrite lookup_insert_ne
      |intros q Hq; simpl; by rewrite lookup_insert_ne
      |simpl; rewrite !lookup_insert_eq; intros fr occ [= <-] [= <-] t;
       rewrite docs_empty, lookup_empty; reflexivity].
Qed.



End Steps.



End Occurrences.

(** ** Further properties of the sorter *)

Module SorterExtra.
Import Sorter SorterIO Props SortFacts SorterProofs.

Lemma filter_all {A} (P : A -> Prop) `{∀ x, Decision (P x)} (l : list A) :
  (∀ x, x ∈ l -> P x) -> filter P l = l.
Proof.
  induction l as [|x l IH]; intros Hl; [done|].
  rewrite filter_cons_True by (apply Hl; left).
  f_equal. apply IH. intros y Hy. apply Hl. by right.
Qed.

Lemma filter_ext_in {A} (P1 P2 : A -> Prop) `{∀ x, Decision (P1 x)} `{∀ x, Decision (P2 x)}
    (l : list A) :
  (∀ x, x ∈ l -> P1 x <-> P2 x) -> filter P1 l = filter P2 l.
Proof.
  induction l as [|x l IH]; intros Hl; [done|]. rewrite !filter_cons.
  rewrite IH by (intros y Hy; apply Hl; by right).
  destruct (decide (P1 x)) as [H1|H1], (decide (P2 x)) as [H2|H2]; try done.
  - exfalso. apply H2, (Hl x); [left|done].
  - exfalso. apply H1, (Hl x); [left|done].
Qed.

Lemma deleteOrderedDocs_flushed ps :
  orderedDocsToRemove (deleteOrderedDocs ps) = ∅ ∧
  orderedDocs (deleteOrderedDocs ps) =
    filter (fun x => orderedDocsToRemove ps !! x.1 = None) (orderedDocs ps) ∧
  docs (deleteOrderedDocs ps) = docs ps ∧ type (deleteOrderedDocs ps) = type ps.
Proof.
  unfold deleteOrderedDocs. case_decide as Hsz; simpl; [|done].
  apply map_size_empty_iff in Hsz. rewrite Hsz. split_and!; try done.
  symmetry. apply filter_all. intros x _. apply lookup_empty.
Qed.

Lemma ensurePropertyIsSorted_fields lc lang ps :
  orderedDocsToRemove (ensurePropertyIsSorted lc lang ps) = orderedDocsToRemove ps ∧
  orderedDocs (ensurePropertyIsSorted lc lang ps) ≡ₚ orderedDocs ps ∧
  type (ensurePropertyIsSorted lc lang ps) = type ps.
Proof. split_and!; try reflexivity. apply js_sort_perm. Qed.

Lemma save_flush_lookup lc st p :
  enabled st = true ->
  sorts (save_flush lc st) !! p =
    (if isSorted st then (fun ps => deleteOrderedDocs ps)
     else (fun ps => ensurePropertyIsSorted lc (language st) (deleteOrderedDocs ps)))
      <$> sorts st !! p.
Proof.
  intros He. unfold save_flush. rewrite He. simpl negb. cbv iota.
  rewrite ensureIsSorted_lookup. unfold ensureOrderedDocsAreDeleted, set_sorts. simpl.
  rewrite He. destruct (isSorted st); simpl; rewrite lookup_fmap; [done|].
  rewrite <- option_fmap_compose. reflexivity.
Qed.

Lemma save_flush_state lc st :
  enabled st = true ->
  enabled (save_flush lc st) = true ∧ isSorted (save_flush lc st) = true ∧
  language (save_flush lc st) = language st ∧
  sortableProperties (save_flush lc st) = sortableProperties st ∧
  sortablePropertiesWithTypes (save_flush lc st) = sortablePropertiesWithTypes st.
Proof.
  intros He. unfold save_flush, ensureIsSorted, ensureOrderedDocsAreDeleted. rewrite He.
  simpl. destruct (isSorted st) eqn:Es; simpl; rewrite ?He, ?Es; simpl; rewrite ?He; split_and!; reflexivity.
Qed.

(** [save] flushes the pending removals of each property: in the state it
    returns, a sort has no pending removal, its ordered list is the old one
    without the pending ids, and its type is unchanged. *)
Theorem save_flushes_pending (lc : option string -> string -> string -> Z)
    (st : Sorter) (p : string) (ps ps' : PropertySort) :
  enabled st = true -> sorts st !! p = Some ps -> sorts (save_flush lc st) !! p = Some ps' ->
  orderedDocsToRemove ps' = ∅ ∧
  orderedDocs ps' ≡ₚ filter (fun x => orderedDocsToRemove ps !! x.1 = None) (orderedDocs ps) ∧
  type ps' = type ps.
Proof.
  intros He Hps Hps'. rewrite save_flush_lookup, Hps in Hps' by done. simpl in Hps'.
  destruct (deleteOrderedDocs_flushed ps) as (H1 & H2 & _ & H4).
  destruct (isSorted st); injection Hps' as <-.
  - by rewrite H1, H2, H4.
  - destruct (ensurePropertyIsSorted_fields lc (language st) (deleteOrderedDocs ps)) as (E1 & E2 & E3).
    by rewrite E1, E2, E3, H1, H2, H4.
Qed.


Lemma save_flush_pending_empty lc st p ps' :
  enabled st = true -> sorts (save_flush lc st) !! p = Some ps' -> orderedDocsToRemove ps' = ∅.
Proof.
  intros He Hps'. destruct (sorts st !! p) as [ps|] eqn:Hps.
  - by destruct (save_flushes_pending lc st p ps ps' He Hps Hps') as [? _].
  - rewrite save_flush_lookup, Hps in Hps' by done. by destruct (isSorted st).
Qed.

Lemma deleteOrderedDocs_flushed_id ps :
  orderedDocsToRemove ps = ∅ -> deleteOrderedDocs ps = ps.
Proof.
  intros H. unfold deleteOrderedDocs. rewrite H, map_size_empty. by case_decide.
Qed.

Lemma load_saved_sorts (m : gmap string PropertySort) :
  (∀ p ps, m !! p = Some ps -> orderedDocsToRemove ps = ∅) ->
  (fun s => mkPropertySort (ser_docs s) (ser_orderedDocs s) ∅ (ser_type s)) <$>
    ((fun s => mkSerializablePropertySort (docs s) (orderedDocs s) (type s)) <$> m) = m.
Proof.
  intros Hm. rewrite <- map_fmap_compose. rewrite <- (map_fmap_id m) at 2.
  apply map_fmap_ext. intros p ps Hps. simpl. rewrite <- (Hm p ps Hps). by destruct ps.
Qed.

(** [save] returns the flushed and sorted state together with its raw form;
    [load] of that raw form rebuilds exactly this state, and saving it again
    gives the same pair. *)
Theorem save_load_roundtrip (lc : option string -> string -> string -> Z)
    (st st' : Sorter) (raw : Raw) :
  enabled st = true -> save lc st = (st', raw) ->
  st' = save_flush lc st ∧ load raw = st' ∧ save lc (load raw) = (st', raw).
Proof.
  intros He Hsave. unfold save in Hsave. rewrite He in Hsave. simpl negb in Hsave.
  cbv iota zeta in Hsave.
  assert (Hst' : st' = save_flush lc st).
  { injection Hsave as <- _. unfold save_flush. by rewrite He. }
  subst st'.
  destruct (save_flush_state lc st He) as (Fe & Fs & _ & _ & _).
  assert (Hflush : ensureIsSorted lc (ensureOrderedDocsAreDeleted st) = save_flush lc st)
    by (unfold save_flush; by rewrite He).
  rewrite Hflush in Hsave. injection Hsave as <-.
  assert (Hload : load (RawSaved (mkRawSorter (sortableProperties (save_flush lc st))
              (sortablePropertiesWithTypes (save_flush lc st))
              ((fun s => mkSerializablePropertySort (docs s) (orderedDocs s) (type s))
                 <$> sorts (save_flush lc st))
              (enabled (save_flush lc st)) (isSorted (save_flush lc st))
              (language (save_flush lc st)))) = save_flush lc st).
  { unfold load. simpl. rewrite Fe. simpl. rewrite load_saved_sorts.
    - destruct (save_flush lc st); simpl in *; by subst.
    - intros p ps. apply save_flush_pending_empty, He. }
  split; [done|]. split; [exact Hload|]. rewrite Hload.
  unfold save. rewrite Fe. simpl negb. cbv iota zeta.
  assert (Hdel : ensureOrderedDocsAreDeleted (save_flush lc st) = save_flush lc st).
  { unfold ensureOrderedDocsAreDeleted.
    rewrite (map_fmap_ext deleteOrderedDocs id).
    - rewrite map_fmap_id. destruct (save_flush lc st); reflexivity.
    - intros p ps Hps. apply deleteOrderedDocs_flushed_id.
      exact (save_flush_pending_empty lc st p ps He Hps). }
  assert (Hsorted : ensureIsSorted lc (save_flush lc st) = save_flush lc st)
    by (unfold ensureIsSorted; by rewrite Fs).
  rewrite Hdel, Hsorted, ?Fe. reflexivity.
Qed.


Lemma not_in_map_fst (id : string) (l : list (string * SortValue)) :
  id ∉ map fst l <-> ∀ x, x ∈ l -> x.1 <> id.
Proof.
  split.
  - intros Hn x Hx <-. apply Hn. apply list_elem_of_In, in_map, list_elem_of_In, Hx.
  - intros Hl Hin. apply list_elem_of_In, in_map_iff in Hin as [x [Hx Hin]].
    apply (Hl x); [by apply list_elem_of_In|done].
Qed.

Lemma prepare_property lc st p ps st' ps' :
  sorts st !! p = Some ps -> sortBy_prepare lc st p = Ok st' -> sorts st' !! p = Some ps' ->
  orderedDocsToRemove ps' = ∅ ∧
  orderedDocs ps' ≡ₚ filter (fun x => orderedDocsToRemove ps !! x.1 = None) (orderedDocs ps) ∧
  (∀ y, y ∉ map fst (orderedDocs ps') -> docs ps' !! y = docs ps !! y).
Proof.
  intros Hps Hprep Hps'. rewrite (sortBy_prepare_eq lc st p ps Hps) in Hprep.
  injection Hprep as <-. rewrite ensureIsSorted_lookup in Hps'. simpl in Hps'.
  rewrite lookup_insert_eq in Hps'.
  destruct (deleteOrderedDocs_flushed ps) as (H1 & H2 & H3 & _).
  destruct (isSorted st || negb (enabled st)); simpl in Hps'; injection Hps' as <-.
  - split_and!; [done|by rewrite H2|]. intros y _. by rewrite H3.
  - unfold ensurePropertyIsSorted. simpl. split_and!; [done| |].
    + rewrite js_sort_perm. by rewrite H2.
    + intros y Hy. rewrite set_positions_notin by done. by rewrite H3.
Qed.

(** Removing a document that is not at position 0 and then sorting the
    property (the first step of [sortBy]) drops it from both the position
    map and the ordered list, and leaves no pending removal. *)
Theorem remove_then_sort_forgets (lc : option string -> string -> string -> Z)
    (st st1 st2 : Sorter) (p id : string) (ps ps2 : PropertySort) (k : Z) :
  enabled st = true -> sorts st !! p = Some ps -> docs ps !! id = Some k -> k <> 0 ->
  remove st p id = Ok st1 -> sortBy_prepare lc st1 p = Ok st2 -> sorts st2 !! p = Some ps2 ->
  docs ps2 !! id = None ∧ (id ∉ map fst (orderedDocs ps2)) ∧ orderedDocsToRemove ps2 = ∅.
Proof.
  intros He Hps Hk Hk0 Hrem Hprep Hps2.
  unfold remove in Hrem. rewrite He, Hps, Hk in Hrem. simpl in Hrem.
  replace (k =? 0) with false in Hrem by (symmetry; by apply Z.eqb_neq).
  injection Hrem as <-.
  set (ps1 := set_orderedDocsToRemove (set_docs ps (delete id (docs ps)))
                (<[id := true]> (orderedDocsToRemove (set_docs ps (delete id (docs ps)))))).
  assert (Hps1 : sorts (set_sorts st (<[p := ps1]> (sorts st))) !! p = Some ps1)
    by (simpl; apply lookup_insert_eq).
  destruct (prepare_property lc _ p ps1 st2 ps2 Hps1 Hprep Hps2) as (H1 & H2 & H3).
  assert (Hnot : id ∉ map fst (orderedDocs ps2)).
  { apply not_in_map_fst. intros x Hx Hxid. rewrite H2 in Hx.
    apply list_elem_of_filter in Hx as [Hx _]. rewrite Hxid in Hx.
    simpl in Hx. by rewrite lookup_insert_eq in Hx. }
  split_and!; [|done|done]. rewrite H3 by done. simpl. apply lookup_delete_eq.
Qed.

(** On a non-empty sorted property, inserting a new document, removing it and
    sorting again gives the old ordered list without its pending removals,
    and the document has no position. *)
Theorem insert_remove_sort_restores (lc : option string -> string -> string -> Z)
    (st st1 st2 st3 : Sorter) (p id : string) (v : SortValue) (lang : option string)
    (ps ps3 : PropertySort) :
  enabled st = true -> sorts st !! p = Some ps -> orderedDocs ps <> [] ->
  id ∉ map fst (orderedDocs ps) ->
  insert st p id v lang = Ok st1 -> remove st1 p id = Ok st2 ->
  sortBy_prepare lc st2 p = Ok st3 -> sorts st3 !! p = Some ps3 ->
  orderedDocs ps3 ≡ₚ filter (fun x => orderedDocsToRemove ps !! x.1 = None) (orderedDocs ps) ∧
  docs ps3 !! id = None.
Proof.
  intros He Hps Hne Hid Hins Hrem Hprep Hps3.
  unfold insert in Hins. rewrite He in Hins. simpl in Hins. rewrite Hps in Hins.
  injection Hins as <-.
  unfold remove in Hrem. simpl in Hrem. rewrite He, lookup_insert_eq in Hrem. simpl in Hrem.
  rewrite lookup_insert_eq in Hrem. simpl in Hrem.
  replace (Z.of_nat (length (orderedDocs ps)) =? 0) with false in Hrem
    by (symmetry; apply Z.eqb_neq; destruct (orderedDocs ps); [done|simpl; lia]).
  injection Hrem as <-.
  match type of Hprep with
  | sortBy_prepare _ (set_sorts ?s (<[p := ?q]> ?m)) _ = _ =>
      assert (Hq : sorts (set_sorts s (<[p := q]> m)) !! p = Some q)
        by (simpl; apply lookup_insert_eq)
  end.
  destruct (prepare_property lc _ p _ st3 ps3 Hq Hprep Hps3) as (H1 & H2 & H3).
  rewrite not_in_map_fst in Hid.
  assert (Hf : filter (fun x => <[id := true]> (orderedDocsToRemove ps) !! x.1 = None)
                 (orderedDocs ps ++ [(id, v)]) =
               filter (fun x => orderedDocsToRemove ps !! x.1 = None) (orderedDocs ps)).
  { rewrite filter_app, filter_cons.
    rewrite decide_False by (cbn [fst]; rewrite lookup_insert_eq; discriminate).
    rewrite filter_nil, app_nil_r. apply filter_ext_in. intros x Hx.
    by rewrite lookup_insert_ne by (intros Hxid; by apply (Hid x)). }
  simpl in H2. rewrite Hf in H2. split; [done|].
  rewrite H3; simpl.
  - apply lookup_delete_eq.
  - apply not_in_map_fst. intros x Hx Hxid. rewrite H2 in Hx.
    apply list_elem_of_filter in Hx as [_ Hx]. by apply (Hid x).
Qed.


Lemma schema_type_names_spec ty :
  ty ∈ schema_type_names <->
  (String.eqb ty "boolean" || String.eqb ty "number" || String.eqb ty "string" ||
   String.eqb ty "boolean[]" || String.eqb ty "number[]" || String.eqb ty "string[]") = true.
Proof.
  unfold schema_type_names. rewrite !elem_of_cons, elem_of_nil.
  rewrite !Bool.orb_true_iff, !String.eqb_eq. tauto.
Qed.

(** [innerCreate] on a flat schema succeeds exactly when every property that
    is not denied has one of the six type names. *)
Theorem innerCreate_flat_ok (schema : list (string * string)) (denied : list string) :
  (∃ st, innerCreate_flat schema denied = Ok st) <->
  ∀ path ty, (path, ty) ∈ schema -> path ∉ denied -> ty ∈ schema_type_names.
Proof.
  induction schema as [|[path ty] rest IH]; simpl.
  - split; [intros _ path ty Hin; by apply elem_of_nil in Hin|eauto].
  - split.
    + intros [st Hst]. destruct (innerCreate_flat rest denied) as [st0|e] eqn:Hrest;
        [|discriminate]. simpl in Hst.
      assert (Hr : ∀ path ty, (path, ty) ∈ rest -> path ∉ denied -> ty ∈ schema_type_names)
        by (apply IH; eauto).
      intros path' ty' Hin Hd. apply elem_of_cons in Hin as [[= -> ->]|Hin]; [|by eapply Hr].
      rewrite decide_False in Hst by done. apply schema_type_names_spec.
      repeat match type of Hst with
             | context [String.eqb ?a ?b] => destruct (String.eqb a b)
             end; simpl in *; try discriminate; reflexivity.
    + intros Hall. destruct IH as [_ IH].
      destruct IH as [st0 Hrest].
      { intros path' ty' Hin Hd. apply (Hall path' ty'); [by right|done]. }
      rewrite Hrest. simpl. case_decide as Hd; [eauto|].
      assert (Hty : ty ∈ schema_type_names) by (apply (Hall path ty); [left|done]).
      apply schema_type_names_spec in Hty.
      repeat match goal with
             | |- context [String.eqb ?a ?b] => destruct (String.eqb a b)
             end; simpl in *; try discriminate; eauto.
Qed.

Lemma sort_type_name_inj t t' : sort_type_name t = sort_type_name t' -> t = t'.
Proof. by destruct t, t'. Qed.


(** *** Witnesses *)

Import Fixtures.

Lemma save_flushes_pending_witness :
  let st := state_of c_removed in
  let ps := sort_in st in
  let ps' := sort_in (save_flush Models.localeCompare st) in
  orderedDocsToRemove ps' = ∅ ∧
  orderedDocs ps' ≡ₚ filter (fun x => orderedDocsToRemove ps !! x.1 = None) (orderedDocs ps) ∧
  type ps' = type ps.
Proof.
  apply (save_flushes_pending Models.localeCompare (state_of c_removed) "p").
  - vm_compute. reflexivity.
  - vm_compute. reflexivity.
  - vm_compute. reflexivity.
Defined.

Lemma save_load_roundtrip_witness :
  let st := state_of c_removed in
  let out := save Models.localeCompare st in
  out.1 = save_flush Models.localeCompare st ∧ load out.2 = out.1 ∧
  save Models.localeCompare (load out.2) = (out.1, out.2).
Proof.
  apply (save_load_roundtrip Models.localeCompare (state_of c_removed)).
  - vm_compute. reflexivity.
  - vm_compute. reflexivity.
Defined.

Lemma remove_then_sort_forgets_witness :
  let ps2 := sort_in (state_of after_removal) in
  docs ps2 !! "c" = None ∧ ("c" ∉ map fst (orderedDocs ps2)) ∧ orderedDocsToRemove ps2 = ∅.
Proof.
  apply (remove_then_sort_forgets Models.localeCompare (state_of three_numbers)
           (state_of c_removed) (state_of after_removal) "p" "c"
           (sort_in (state_of three_numbers)) (sort_in (state_of after_removal)) 1).
  - vm_compute. reflexivity.
  - vm_compute. reflexivity.
  - vm_compute. reflexivity.
  - lia.
  - vm_compute. reflexivity.
  - vm_compute. reflexivity.
  - vm_compute. reflexivity.
Defined.

Lemma insert_remove_sort_restores_witness :
  let ps := sort_in (state_of three_numbers) in
  let ps3 := sort_in (state_of d_sorted) in
  orderedDocs ps3 ≡ₚ filter (fun x => orderedDocsToRemove ps !! x.1 = None) (orderedDocs ps) ∧
  docs ps3 !! "d" = None.
Proof.
  apply (insert_remove_sort_restores Models.localeCompare (state_of three_numbers)
           (state_of d_inserted) (state_of d_removed) (state_of d_sorted) "p" "d"
           (SVNumber 5) None (sort_in (state_of three_numbers)) (sort_in (state_of d_sorted))).
  - vm_compute. reflexivity.
  - vm_compute. reflexivity.
  - vm_compute. discriminate.
  - refine (bool_decide_unpack _ _). vm_compute. reflexivity.
  - vm_compute. reflexivity.
  - vm_compute. reflexivity.
  - vm_compute. reflexivity.
  - vm_compute. reflexivity.
Defined.

End SorterExtra.

(** ** Further properties of the index *)

Module IndexExtra.
Import Index Props IndexProps IndexProofs RoundTrip.

Lemma indexOf_first (l1 l2 : list Z) (x : Z) :
  x ∉ l1 -> indexOf (l1 ++ x :: l2) x = Z.of_nat (length l1).
Proof.
  induction l1 as [|y l1 IH]; intros Hx; simpl.
  - by rewrite Z.eqb_refl.
  - apply not_elem_of_cons in Hx as [Hxy Hx].
    destruct (Z.eqb_spec y x) as [->|_]; [done|].
    rewrite IH by done. destruct (Z.eqb_spec (Z.of_nat (length l1)) (-1)); lia.
Qed.

Lemma splice_at {B} (l1 l2 : list B) (x : B) :
  splice (l1 ++ x :: l2) (Z.of_nat (length l1)) 1 = l1 ++ l2.
Proof.
  unfold splice. rewrite length_app. simpl length.
  replace (Z.of_nat (length l1) <? 0) with false by (symmetry; apply Z.ltb_ge; lia).
  replace (Z.min (Z.of_nat (length l1)) (Z.of_nat (length l1 + S (length l2))))
    with (Z.of_nat (length l1)) by lia.
  rewrite Nat2Z.id, take_app_length.
  replace (length l1 + Z.to_nat 1)%nat with (length l1 + 1)%nat by lia.
  f_equal. clear. induction l1 as [|y l1 IH]; simpl; [done|exact IH].
Qed.

Section Trees.
Context {RadixNode AVLNode : Type}.
Variable radixInsert : RadixNode -> string -> Z -> RadixNode.
Variable radixRemoveDocument : RadixNode -> string -> Z -> RadixNode.
Variable avlInsert : AVLNode -> Q -> list Z -> AVLNode.
Variable avlRemoveDocument : AVLNode -> Z -> Q -> AVLNode.
Variable getInternalDocumentId : string -> Z.

Implicit Types (idx : Index RadixNode AVLNode).

(** Removing a boolean value deletes the first occurrence of the document's
    id from the bucket of the value's truthiness, and changes nothing else. *)
Theorem remove_boolean_present_first (idx : Index RadixNode AVLNode) (p id : string)
    (v : ScalarValue) (b : BooleanIndex) (l1 l2 : list Z) lang tokenize dc :
  indexes idx !! p = Some (Bool b) ->
  bucket b (truthy v) = l1 ++ getInternalDocumentId id :: l2 ->
  getInternalDocumentId id ∉ l1 ->
  remove radixRemoveDocument avlRemoveDocument getInternalDocumentId idx p id
    (VScalar v) (Scalar T_boolean) lang tokenize dc =
  Ok (set_indexes idx (<[p := Bool (set_bucket b (truthy v) (l1 ++ l2))]> (indexes idx))).
Proof.
  intros Hb Hbucket Hl1. unfold remove, removeScalar. rewrite Hb, Hbucket.
  rewrite indexOf_first by done. by rewrite splice_at.
Qed.


Lemma set_indexes_twice idx m m' : set_indexes (set_indexes idx m) m' = set_indexes idx m'.
Proof. reflexivity. Qed.

Lemma set_indexes_id idx : set_indexes idx (indexes idx) = idx.
Proof. by destruct idx. Qed.

Lemma bool_insert_fold idx p id T F a c (l : list ScalarValue) lang tokenize dc :
  let i := getInternalDocumentId id in
  indexes idx !! p = Some (Bool (mkBooleanIndex (T ++ replicate a i) (F ++ replicate c i))) ->
  foldM (fun index el => insertScalar radixInsert avlInsert getInternalDocumentId index p id el
                           T_boolean lang tokenize dc) l idx =
  Ok (set_indexes idx (<[p := Bool (mkBooleanIndex
        (T ++ replicate (a + length (filter (fun v => truthy v = true) l)) i)
        (F ++ replicate (c + length (filter (fun v => truthy v = false) l)) i))]> (indexes idx))).
Proof.
  intros i. revert idx a c. induction l as [|v l IH]; intros idx a c Hb; cbn [foldM].
  - simpl. rewrite !Nat.add_0_r, insert_id by done. by rewrite set_indexes_id.
  - unfold insertScalar at 1. rewrite Hb. fold i. cbv beta iota.
    rewrite !filter_cons.
    destruct (truthy v) eqn:Hv; simpl.
    + try rewrite decide_True by done; try rewrite decide_False by done.
      rewrite (IH _ (S a) c)
        by (cbn [indexes set_indexes]; rewrite lookup_insert_eq, replicate_S_end, app_assoc; reflexivity).
      f_equal. rewrite set_indexes_twice. simpl. rewrite insert_insert_eq.
      by rewrite Nat.add_succ_r.
    + try rewrite decide_True by done; try rewrite decide_False by done.
      rewrite (IH _ a (S c))
        by (cbn [indexes set_indexes]; rewrite lookup_insert_eq, replicate_S_end, app_assoc; reflexivity).
      f_equal. rewrite set_indexes_twice. simpl. rewrite insert_insert_eq.
      by rewrite Nat.add_succ_r.
Qed.


Lemma bool_remove_fold idx p id T F a c (l : list ScalarValue) lang tokenize dc :
  let i := getInternalDocumentId id in
  i ∉ T -> i ∉ F ->
  (length (filter (fun v => truthy v = true) l) <= a)%nat ->
  (length (filter (fun v => truthy v = false) l) <= c)%nat ->
  indexes idx !! p = Some (Bool (mkBooleanIndex (T ++ replicate a i) (F ++ replicate c i))) ->
  foldM (fun index el => removeScalar radixRemoveDocument avlRemoveDocument
                           getInternalDocumentId index p id el T_boolean lang tokenize dc) l idx =
  Ok (set_indexes idx (<[p := Bool (mkBooleanIndex
        (T ++ replicate (a - length (filter (fun v => truthy v = true) l)) i)
        (F ++ replicate (c - length (filter (fun v => truthy v = false) l)) i))]> (indexes idx))).
Proof.
  intros i HT HF. revert idx a c. induction l as [|v l IH]; intros idx a c Ha Hc Hb; cbn [foldM].
  - simpl. rewrite !Nat.sub_0_r, insert_id by done. by rewrite set_indexes_id.
  - unfold removeScalar at 1. rewrite Hb. fold i. cbv beta iota.
    rewrite (filter_cons (fun v => truthy v = true)) in Ha |- *.
    rewrite (filter_cons (fun v => truthy v = false)) in Hc |- *.
    destruct (truthy v) eqn:Hv; simpl in Ha, Hc |- *.
    + destruct a as [|a]; [lia|].
      replace (replicate (S a) i) with (i :: replicate a i) by reflexivity.
      rewrite indexOf_first, splice_at by done.
      rewrite (IH _ a c) by (lia || (cbn [indexes set_indexes]; by rewrite lookup_insert_eq)).
      f_equal. rewrite set_indexes_twice. simpl. by rewrite insert_insert_eq.
    + destruct c as [|c]; [lia|].
      replace (replicate (S c) i) with (i :: replicate c i) by reflexivity.
      rewrite indexOf_first, splice_at by done.
      rewrite (IH _ a c) by (lia || (cbn [indexes set_indexes]; by rewrite lookup_insert_eq)).
      f_equal. rewrite set_indexes_twice. simpl. by rewrite insert_insert_eq.
Qed.

(** Inserting a boolean array for a document absent from both buckets and
    then removing the same array restores the index. *)
Theorem boolean_array_insert_remove_restores (idx idx' : Index RadixNode AVLNode)
    (p id : string) (l : list ScalarValue) (b : BooleanIndex) lang tokenize dc :
  indexes idx !! p = Some (Bool b) ->
  getInternalDocumentId id ∉ bi_true b -> getInternalDocumentId id ∉ bi_false b ->
  insert radixInsert avlInsert getInternalDocumentId idx p id (VArray l)
    (ArrayOf T_boolean) lang tokenize dc = Ok idx' ->
  remove radixRemoveDocument avlRemoveDocument getInternalDocumentId idx' p id (VArray l)
    (ArrayOf T_boolean) lang tokenize dc = Ok idx.
Proof.
  intros Hb HT HF Hins. unfold insert in Hins.
  rewrite (bool_insert_fold idx p id (bi_true b) (bi_false b) 0 0)
    in Hins by (rewrite !app_nil_r; by destruct b).
  injection Hins as <-. unfold remove.
  rewrite (bool_remove_fold _ p id (bi_true b) (bi_false b)
    (0 + length (filter (fun v => truthy v = true) l))
    (0 + length (filter (fun v => truthy v = false) l))) by (done || lia ||
    (cbn [indexes set_indexes]; by rewrite lookup_insert_eq)).
  rewrite !Nat.sub_diag, !app_nil_r, set_indexes_twice. simpl.
  rewrite insert_insert_eq. destruct b. rewrite insert_id by done. by rewrite set_indexes_id.
Qed.


Lemma string_array_fold idx p id ss s lang tokenize dc fl fr occ r :
  fieldLengths idx !! p = Some fl -> frequencies idx !! p = Some fr ->
  tokenOccurrencies idx !! p = Some occ -> indexes idx !! p = Some (Radix r) ->
  let i := getInternalDocumentId id in
  let tl := tokenize s lang p in
  ∃ idx', foldM (fun index el => insertScalar radixInsert avlInsert getInternalDocumentId
                   index p id el T_string lang tokenize dc) (map VString (ss ++ [s])) idx = Ok idx' ∧
    frequencies idx' !! p = Some (<[i := Some (freq_add tl tl ∅)]> fr) ∧
    fieldLengths idx' !! p = Some (<[i := Some (of_nat (length tl))]> fl) ∧
    tokenOccurrencies idx' !! p =
      Some (occ_add (concat (map (fun x => tokenize x lang p) (ss ++ [s]))) occ).
Proof.
  intros Hfl Hfr Hocc Hr i tl. revert idx fl fr occ r Hfl Hfr Hocc Hr.
  induction ss as [|s0 ss IH]; intros idx fl fr occ r Hfl Hfr Hocc Hr; cbn [app map foldM].
  - change (insertScalar radixInsert avlInsert getInternalDocumentId idx p id (VString s)
              T_string lang tokenize dc)
      with (insert radixInsert avlInsert getInternalDocumentId idx p id (VScalar (VString s))
              (Scalar T_string) lang tokenize dc).
    rewrite (insert_string_eq radixInsert avlInsert getInternalDocumentId tokenize
               idx p id s lang dc fl fr occ r Hfl Hfr Hocc Hr).
    eexists. split; [reflexivity|].
    destruct (with_prop_lookups idx p
      (fold_left (fun r t => radixInsert r t i) tl r) (<[i := Some (freq_add tl tl ∅)]> fr)
      (occ_add tl occ)
      (jdiv (jadd (jmul (nullish (avgFieldLength idx !! p) (JNum 0))
                        (jsub (of_Z dc) (of_Z 1))) (of_nat (length tl))) (of_Z dc))
      (<[i := Some (of_nat (length tl))]> fl)) as (_ & H1 & H2 & _ & H3).
    split_and!; [exact H1|exact H3|]. transitivity (Some (occ_add tl occ)); [exact H2|].
    simpl. by rewrite app_nil_r.
  - change (insertScalar radixInsert avlInsert getInternalDocumentId idx p id (VString s0)
              T_string lang tokenize dc)
      with (insert radixInsert avlInsert getInternalDocumentId idx p id (VScalar (VString s0))
              (Scalar T_string) lang tokenize dc).
    rewrite (insert_string_eq radixInsert avlInsert getInternalDocumentId tokenize
               idx p id s0 lang dc fl fr occ r Hfl Hfr Hocc Hr).
    cbv beta iota.
    edestruct (with_prop_lookups idx p) as (H0 & H1 & H2 & _ & H3).
    destruct (IH _ _ _ _ _ H3 H1 H2 H0) as (idx' & Hf & E1 & E2 & E3).
    exists idx'. split; [exact Hf|]. rewrite E1, E2, E3, !insert_insert_eq.
    split_and!; try reflexivity. f_equal. cbn [map concat].
    unfold occ_add. by rewrite fold_left_app.
Qed.



Lemma iter_sub_nan c : Nat.iter c (fun v => jsub v (of_Z 1)) JNaN = JNaN.
Proof. induction c as [|c IH]; simpl; [done|by rewrite IH]. Qed.


End Trees.

Lemma set_add_all_spec (acc l : list Z) :
  NoDup acc -> NoDup (set_add_all acc l) ∧ ∀ x, x ∈ set_add_all acc l <-> x ∈ acc ∨ x ∈ l.
Proof.
  revert acc. induction l as [|y l IH]; intros acc Hacc; simpl.
  - split; [done|]. intros x. rewrite elem_of_nil. tauto.
  - case_bool_decide as Hy.
    + destruct (IH acc Hacc) as [Hnd Hin]. split; [done|]. intros x.
      rewrite Hin, elem_of_cons. split; [tauto|]. intros [H|[->|H]]; tauto.
    + assert (Hnd' : NoDup (acc ++ [y])).
      { apply NoDup_app. split_and!; [done| |by apply NoDup_singleton].
        intros x Hx Hx'. apply list_elem_of_singleton in Hx'. subst. contradiction. }
      destruct (IH _ Hnd') as [Hnd Hin]. split; [done|]. intros x.
      rewrite Hin, elem_of_app, list_elem_of_singleton, elem_of_cons. tauto.
Qed.

Lemma elem_of_concat_map_snd (x : Z) (L : list (string * list Z)) :
  x ∈ concat (map snd L) <-> ∃ t l, (t, l) ∈ L ∧ x ∈ l.
Proof.
  rewrite list_elem_of_In, in_concat. split.
  - intros [l [Hl Hx]]. apply in_map_iff in Hl as [[t l'] [Hl' Hin]]. simpl in Hl'. subst.
    exists t, l. split; by apply list_elem_of_In.
  - intros (t & l & Htl & Hx). exists l. split; [|by apply list_elem_of_In].
    apply in_map_iff. exists (t, l). split; [done|]. by apply list_elem_of_In.
Qed.

(** [search] scores a duplicate-free list of ids: exactly the ids of the
    terms the radix tree finds. *)
Theorem search_scores_distinct_ids {RadixNode AVLNode : Type}
    (radixFind : RadixNode -> FindParams -> list (string * list Z))
    (calculateResultScores : Index RadixNode AVLNode -> string -> string -> list Z ->
                             res (list (Z * jsnum)))
    (exact_ : bool) (tolerance_ : option Z) (idx : Index RadixNode AVLNode)
    (prop term_ : string) (r : RadixNode) :
  prop ∈ dom (tokenOccurrencies idx) -> indexes idx !! prop = Some (Radix r) ->
  ∃ ids, search radixFind calculateResultScores exact_ tolerance_ idx prop term_ =
           calculateResultScores idx prop term_ ids ∧
    NoDup ids ∧
    ∀ x, x ∈ ids <-> ∃ t l, (t, l) ∈ radixFind r (mkFindParams (Some term_) exact_ tolerance_) ∧ x ∈ l.
Proof.
  intros Hdom Hr. unfold search. rewrite decide_True by done. rewrite Hr.
  eexists. split; [reflexivity|].
  destruct (set_add_all_spec [] (concat (map snd (radixFind r (mkFindParams (Some term_) exact_ tolerance_)))) (NoDup_nil_2)) as [Hnd Hin].
  split; [done|]. intros x. rewrite Hin, elem_of_concat_map_snd, elem_of_nil. tauto.
Qed.

Lemma foldM_throw {A B} (f : A -> B -> res A) (l : list B) (x : B) (a : A) :
  x ∈ l -> (∀ a, ∃ e, f a x = Throw e) -> ∃ e, foldM f l a = Throw e.
Proof.
  intros Hx Hf. revert a. induction l as [|y l IH]; intros a; [by apply elem_of_nil in Hx|].
  simpl. apply elem_of_cons in Hx as [->|Hx].
  - destruct (Hf a) as [e ->]. by exists e.
  - destruct (f a y) as [a'|e]; [by apply IH|by exists e].
Qed.


Section Average.
Context {RadixNode AVLNode : Type}.
Variable getInternalDocumentId : string -> Z.
Implicit Types (idx : Index RadixNode AVLNode).

Lemma avg_step idx p id tokens c a fl fr :
  fieldLengths idx !! p = Some fl -> frequencies idx !! p = Some fr ->
  nullish (avgFieldLength idx !! p) (JNum 0) = JNum a -> 0 <= c ->
  ∃ idx1 a1 fl1 fr1,
    insertDocumentScoreParameters getInternalDocumentId idx p id tokens (c + 1) = Ok idx1 ∧
    avgFieldLength idx1 !! p = Some (JNum a1) ∧
    a1 * inject_Z (c + 1) == a * inject_Z c + inject_Z (Z.of_nat (length tokens)) ∧
    fieldLengths idx1 !! p = Some fl1 ∧ frequencies idx1 !! p = Some fr1.
Proof.
  intros Hfl Hfr Ha Hc. unfold insertDocumentScoreParameters. rewrite Ha. simpl.
  rewrite Hfl, Hfr.
  assert (H1 : ~ inject_Z (c + 1) == 0) by (unfold Qeq; simpl; lia).
  cbv beta iota delta [of_Z of_nat jsub jneg jmul jadd jdiv].
  rewrite (qeqb_false _ H1).
  do 4 eexists. split; [reflexivity|]. simpl. rewrite !lookup_insert_eq.
  split_and!; try reflexivity.
  assert (Hq : inject_Z (c + 1) == inject_Z c + 1) by (unfold Qeq, Qplus, inject_Z; simpl; lia).
  unfold Qdiv. rewrite <- Qmult_assoc, (Qmult_comm (/ _)), Qmult_inv_r by exact H1.
  rewrite Qmult_1_r, Hq. change (inject_Z 1) with 1%Q. ring.
Qed.

Lemma avg_fold ds idx p c a (S0 : Q) fl fr :
  fieldLengths idx !! p = Some fl -> frequencies idx !! p = Some fr ->
  nullish (avgFieldLength idx !! p) (JNum 0) = JNum a -> a * inject_Z c == S0 -> 0 <= c ->
  ds <> [] ->
  ∃ idx' a', insertDocumentsScoreParameters getInternalDocumentId idx p ds (c + 1) = Ok idx' ∧
    avgFieldLength idx' !! p = Some (JNum a') ∧
    a' * inject_Z (c + Z.of_nat (length ds)) ==
      S0 + inject_Z (Z.of_nat (sum_list_with (fun d => length d.2) ds)).
Proof.
  revert idx c a S0 fl fr. induction ds as [|[id tokens] ds IH];
    intros idx c a S0 fl fr Hfl Hfr Ha HS Hc Hne; [done|].
  destruct (avg_step idx p id tokens c a fl fr Hfl Hfr Ha Hc)
    as (idx1 & a1 & fl1 & fr1 & Hstep & Havg1 & Ha1 & Hfl1 & Hfr1).
  simpl. rewrite Hstep. simpl.
  destruct ds as [|d ds'].
  - exists idx1, a1. split; [reflexivity|]. split; [done|].
    simpl. rewrite Ha1, <- HS. rewrite Nat.add_0_r.
    replace (c + Z.of_nat 1) with (c + 1) by lia. reflexivity.
  - destruct (IH idx1 (c + 1) a1 (S0 + inject_Z (Z.of_nat (length tokens)))%Q fl1 fr1 Hfl1 Hfr1)
      as (idx' & a' & Hf & Havg & Ha');
      [by rewrite Havg1| rewrite Ha1, HS; reflexivity|lia|done|].
    exists idx', a'. split; [exact Hf|]. split; [exact Havg|].
    match goal with |- _ * inject_Z ?e == _ =>
      replace e with (c + 1 + Z.of_nat (length (d :: ds'))) by (simpl; lia) end.
    rewrite Ha'. simpl sum_list_with. rewrite !Nat2Z.inj_add, !inject_Z_plus. ring.
Qed.


End Average.
Section Create.
Context {RadixNode AVLNode : Type}.
Variable radixCreate : RadixNode.
Variable avlCreate : Q -> list Z -> AVLNode.
Implicit Types (idx : Index RadixNode AVLNode).

Lemma create_flat_step path t idx0 :
  ∃ idx1, (∀ rest, create_flat radixCreate avlCreate ((path, searchable_type_name t) :: rest) idx0 =
                   create_flat radixCreate avlCreate rest idx1) ∧
    searchableProperties idx1 = searchableProperties idx0 ++ [path] ∧
    (∀ q, q <> path ->
       searchablePropertiesWithTypes idx1 !! q = searchablePropertiesWithTypes idx0 !! q ∧
       indexes idx1 !! q = indexes idx0 !! q ∧ frequencies idx1 !! q = frequencies idx0 !! q ∧
       tokenOccurrencies idx1 !! q = tokenOccurrencies idx0 !! q ∧
       avgFieldLength idx1 !! q = avgFieldLength idx0 !! q ∧
       fieldLengths idx1 !! q = fieldLengths idx0 !! q) ∧
    searchablePropertiesWithTypes idx1 !! path = Some t ∧
    indexes idx1 !! path = Some (node_of radixCreate avlCreate t) ∧
    match inner_type t with
    | T_string => frequencies idx1 !! path = Some ∅ ∧ tokenOccurrencies idx1 !! path = Some ∅ ∧
                  avgFieldLength idx1 !! path = Some (JNum 0) ∧ fieldLengths idx1 !! path = Some ∅
    | _ => frequencies idx1 !! path = frequencies idx0 !! path ∧
           tokenOccurrencies idx1 !! path = tokenOccurrencies idx0 !! path ∧
           avgFieldLength idx1 !! path = avgFieldLength idx0 !! path ∧
           fieldLengths idx1 !! path = fieldLengths idx0 !! path
    end.
Proof.
  destruct t as [[]|[]]; (eexists; split; [intros rest; reflexivity|]);
    simpl; split_and!; try reflexivity; try apply lookup_insert_eq;
    intros q Hq; rewrite ?lookup_insert_ne by congruence; split_and!; reflexivity.
Qed.

Lemma create_flat_valid path ty rest idx0 idx :
  create_flat radixCreate avlCreate ((path, ty) :: rest) idx0 = Ok idx ->
  ∃ t, ty = searchable_type_name t.
Proof.
  simpl. intros H.
  destruct (String.eqb_spec ty "boolean") as [->|_]; [by exists (Scalar T_boolean)|].
  destruct (String.eqb_spec ty "boolean[]") as [->|_]; [by exists (ArrayOf T_boolean)|].
  destruct (String.eqb_spec ty "number") as [->|_]; [by exists (Scalar T_number)|].
  destruct (String.eqb_spec ty "number[]") as [->|_]; [by exists (ArrayOf T_number)|].
  destruct (String.eqb_spec ty "string") as [->|_]; [by exists (Scalar T_string)|].
  destruct (String.eqb_spec ty "string[]") as [->|_]; [by exists (ArrayOf T_string)|].
  discriminate.
Qed.

Lemma create_flat_gen schema idx0 idx :
  NoDup (map fst schema) -> create_flat radixCreate avlCreate schema idx0 = Ok idx ->
  searchableProperties idx = searchableProperties idx0 ++ map fst schema ∧
  (∀ q, q ∉ map fst schema ->
     searchablePropertiesWithTypes idx !! q = searchablePropertiesWithTypes idx0 !! q ∧
     indexes idx !! q = indexes idx0 !! q ∧ frequencies idx !! q = frequencies idx0 !! q ∧
     tokenOccurrencies idx !! q = tokenOccurrencies idx0 !! q ∧
     avgFieldLength idx !! q = avgFieldLength idx0 !! q ∧
     fieldLengths idx !! q = fieldLengths idx0 !! q) ∧
  (∀ q ty, (q, ty) ∈ schema -> ∃ t, ty = searchable_type_name t ∧
     searchablePropertiesWithTypes idx !! q = Some t ∧
     indexes idx !! q = Some (node_of radixCreate avlCreate t) ∧
     match inner_type t with
     | T_string => frequencies idx !! q = Some ∅ ∧ tokenOccurrencies idx !! q = Some ∅ ∧
                   avgFieldLength idx !! q = Some (JNum 0) ∧ fieldLengths idx !! q = Some ∅
     | _ => frequencies idx !! q = frequencies idx0 !! q ∧
            tokenOccurrencies idx !! q = tokenOccurrencies idx0 !! q ∧
            avgFieldLength idx !! q = avgFieldLength idx0 !! q ∧
            fieldLengths idx !! q = fieldLengths idx0 !! q
     end).
Proof.
  revert idx0. induction schema as [|[path ty] rest IH]; intros idx0 Hnd H.
  - simpl in H. injection H as <-. simpl. rewrite app_nil_r.
    split_and!; [done|intros q _; split_and!; reflexivity|].
    intros q ty Hin. by apply elem_of_nil in Hin.
  - simpl in Hnd. apply NoDup_cons in Hnd as [Hpath Hnd].
    destruct (create_flat_valid path ty rest idx0 idx H) as [t ->].
    destruct (create_flat_step path t idx0) as (idx1 & Hstep & Hprops & Hother & Ht & Hn & Hs).
    rewrite Hstep in H.
    destruct (IH idx1 Hnd H) as (Iprops & Iother & Iin).
    split_and!.
    + rewrite Iprops, Hprops. simpl. by rewrite <- app_assoc.
    + intros q Hq. apply not_elem_of_cons in Hq as [Hqp Hq].
      destruct (Iother q Hq) as (E1 & E2 & E3 & E4 & E5 & E6).
      destruct (Hother q Hqp) as (F1 & F2 & F3 & F4 & F5 & F6).
      split_and!; congruence.
    + intros q ty' Hin. apply elem_of_cons in Hin as [[= -> ->]|Hin].
      * exists t. destruct (Iother path Hpath) as (E1 & E2 & E3 & E4 & E5 & E6).
        rewrite E1, E2, E3, E4, E5, E6. split_and!; try done.
      * assert (Hqp : q <> path).
        { intros ->. apply Hpath. apply list_elem_of_In, in_map_iff. exists (path, ty').
          split; [done|]. by apply list_elem_of_In. }
        destruct (Iin q ty' Hin) as (t' & -> & G1 & G2 & G3).
        exists t'. split_and!; try done.
        destruct (Hother q Hqp) as (F1 & F2 & F3 & F4 & F5 & F6).
        destruct (inner_type t'); try done;
          destruct G3 as (K1 & K2 & K3 & K4); split_and!; congruence.
Qed.

Lemma searchable_type_name_inj t t' : searchable_type_name t = searchable_type_name t' -> t = t'.
Proof. by destruct t as [[]|[]], t' as [[]|[]]. Qed.


(** [create] on a flat schema succeeds exactly when every property has one
    of the six type names. *)
Theorem create_flat_ok (schema : list (string * string)) (idx0 : Index RadixNode AVLNode) :
  (∃ idx, create_flat radixCreate avlCreate schema idx0 = Ok idx) <->
  ∀ path ty, (path, ty) ∈ schema -> ty ∈ schema_type_names.
Proof.
  revert idx0. induction schema as [|[path ty] rest IH]; intros idx0.
  - split; [intros _ path ty Hin; by apply elem_of_nil in Hin|eauto].
  - split.
    + intros [idx H]. destruct (create_flat_valid path ty rest idx0 idx H) as [t ->].
      destruct (create_flat_step path t idx0) as (idx1 & Hstep & _).
      rewrite Hstep in H.
      assert (Hr : ∀ path ty, (path, ty) ∈ rest -> ty ∈ schema_type_names)
        by (apply (IH idx1); eauto).
      intros path' ty' Hin. apply elem_of_cons in Hin as [[= -> ->]|Hin]; [|by eapply Hr].
      unfold schema_type_names. destruct t as [[]|[]]; simpl; set_solver.
    + intros Hall.
      assert (Hty : ty ∈ schema_type_names) by (apply (Hall path ty); left).
      assert (Ht : ∃ t, ty = searchable_type_name t).
      { unfold schema_type_names in Hty. rewrite !elem_of_cons, elem_of_nil in Hty.
        destruct Hty as [->|[->|[->|[->|[->|[->|[]]]]]]].
        - by exists (Scalar T_boolean).
        - by exists (Scalar T_number).
        - by exists (Scalar T_string).
        - by exists (ArrayOf T_boolean).
        - by exists (ArrayOf T_number).
        - by exists (ArrayOf T_string). }
      destruct Ht as [t ->].
      destruct (create_flat_step path t idx0) as (idx1 & Hstep & _).
      rewrite Hstep. apply IH. intros path' ty' Hin. apply (Hall path' ty'). by right.
Qed.

End Create.
(** *** Witnesses *)

Import IndexFixtures.

Lemma remove_boolean_present_first_witness :
  Run.remove (idx_of two_true) "b" "d2" (VScalar (VBoolean true)) (Scalar T_boolean) None
    Models.tokenize 2 =
  Ok (set_indexes (idx_of two_true)
        (<["b" := Bool (set_bucket (bool_of two_true) true [1])]> (indexes (idx_of two_true)))).
Proof.
  apply (remove_boolean_present_first Models.radixRemoveDocument Models.avlRemoveDocument
           Models.getInternalDocumentId (idx_of two_true) "b" "d2" (VBoolean true)
           (bool_of two_true) [1] []).
  - vm_compute. reflexivity.
  - vm_compute. reflexivity.
  - refine (bool_decide_unpack _ _). vm_compute. reflexivity.
Defined.

Lemma boolean_array_insert_remove_restores_witness :
  Run.remove (idx_of bool_array_inserted) "b" "d1" (VArray three_booleans) (ArrayOf T_boolean)
    None Models.tokenize 1 = Ok (idx_of bool_array).
Proof.
  apply (boolean_array_insert_remove_restores Models.radixInsert Models.radixRemoveDocument
           Models.avlInsert Models.avlRemoveDocument Models.getInternalDocumentId
           (idx_of bool_array) (idx_of bool_array_inserted) "b" "d1" three_booleans
           (bool_of bool_array)).
  - vm_compute. reflexivity.
  - refine (bool_decide_unpack _ _). vm_compute. reflexivity.
  - refine (bool_decide_unpack _ _). vm_compute. reflexivity.
  - vm_compute. reflexivity.
Defined.



Lemma search_scores_distinct_ids_witness :
  ∃ ids, Run.search false None (idx_of two_texts) "t" "a" =
           Run.calculateResultScores (idx_of two_texts) "t" "a" ids ∧
    NoDup ids ∧
    ∀ x, x ∈ ids <-> ∃ t l, (t, l) ∈ Models.radixFind (radix_of two_texts "t")
                                  (mkFindParams (Some "a") false None) ∧ x ∈ l.
Proof.
  apply (search_scores_distinct_ids Models.radixFind Run.calculateResultScores false None
           (idx_of two_texts) "t" "a" (radix_of two_texts "t")).
  - refine (bool_decide_unpack _ _). vm_compute. reflexivity.
  - vm_compute. reflexivity.
Defined.



End IndexExtra.
